(** * dePii: the deidentification engine of [deidentify_pii.py]

    A shallow embedding of class [PIIDeidentifier] and of the parts of
    Python's [str] and [re] that it calls, followed by the properties of
    the engine.

    Modelling conventions.
    - A Python [str] is a [string]; the embedding covers ASCII text: the
      classes [\d], [\s], [\w] and [str.lower]/[str.upper] are the ASCII
      ones, and a character above 127 is an ordinary non-word character.
      A property that depends on these classes or on the case of letters
      is stated for ASCII text ([ascii_text]), where they are those of
      Python.
    - A Python [int] is a [Z].
    - A [dict] keyed by strings is a [gmap string string].
    - A method of the engine is a function in the monad [M]: it takes the
      instance, returns a value or raises, and yields the instance as
      mutated up to that point. *)

From Stdlib Require Import ZArith Lia Bool Ascii String DecimalString DecimalPos.
From stdpp Require Import base option list strings gmap.

Local Open Scope string_scope.
#[local] Arguments String.append !_ _ / : simpl nomatch.

(** ** Characters *)

Module Chr.

Definition code (c : ascii) : nat := nat_of_ascii c.

Definition between (lo hi : nat) (c : ascii) : bool :=
  (lo <=? code c)%nat && (code c <=? hi)%nat.

(** [\d] *)
Definition is_digit : ascii -> bool := between 48 57.
Definition is_upper : ascii -> bool := between 65 90.
Definition is_lower : ascii -> bool := between 97 122.
Definition is_alpha (c : ascii) : bool := is_upper c || is_lower c.
Definition is_octdigit : ascii -> bool := between 48 55.

(** [\w]: alphanumeric or underscore *)
Definition is_word (c : ascii) : bool :=
  is_alpha c || is_digit c || Ascii.eqb c "_".

(** [\s]: [str.isspace], i.e. TAB..CR, FS..US and the blank *)
Definition is_space (c : ascii) : bool :=
  between 9 13 c || between 28 32 c.

(** the blanks that [int] strips: TAB..CR and the blank *)
Definition is_blank (c : ascii) : bool :=
  between 9 13 c || between 32 32 c.

Definition lower (c : ascii) : ascii :=
  if is_upper c then ascii_of_nat (code c + 32) else c.
Definition upper (c : ascii) : ascii :=
  if is_lower c then ascii_of_nat (code c - 32) else c.

Definition one_of (set : string) (c : ascii) : bool :=
  existsb (Ascii.eqb c) (list_ascii_of_string set).

End Chr.

(** ** The [str] methods the engine uses *)

Module Str.

Fixpoint map (f : ascii -> ascii) (s : string) : string :=
  match s with
  | EmptyString => EmptyString
  | String c s' => String (f c) (map f s')
  end.

(** [s.lower()], [s.upper()] *)
Definition lower : string -> string := map Chr.lower.
Definition upper : string -> string := map Chr.upper.

Fixpoint forallb (p : ascii -> bool) (s : string) : bool :=
  match s with
  | EmptyString => true
  | String c s' => p c && forallb p s'
  end.

(** [s.startswith(p)] *)
Definition startswith (p s : string) : bool := String.prefix p s.

(** [p in s] *)
Fixpoint contains (p s : string) : bool :=
  String.prefix p s ||
  match s with
  | EmptyString => false
  | String _ s' => contains p s'
  end.

(** [s.split(sep)] for a separator of one character: the pieces between
    the occurrences of [sep], at least one piece. *)
Fixpoint split (sep : ascii) (s : string) : list string :=
  match s with
  | EmptyString => [EmptyString]
  | String c s' =>
      if Ascii.eqb c sep then EmptyString :: split sep s'
      else match split sep s' with
           | p :: ps => String c p :: ps
           | [] => [String c EmptyString]
           end
  end.

(** [str(n)] *)
Definition of_int (n : Z) : string := NilZero.string_of_int (Z.to_int n).

Fixpoint zeros (n : nat) : string :=
  match n with
  | O => EmptyString
  | S n' => String "0" (zeros n')
  end.

(** [s.zfill(width)]: pad with zeros on the left, after a leading sign. *)
Definition zfill (width : nat) (s : string) : string :=
  let fill := (width - String.length s)%nat in
  match s with
  | String c s' =>
      if Ascii.eqb c "+" || Ascii.eqb c "-"
      then String c (zeros fill +:+ s')
      else zeros fill +:+ s
  | EmptyString => zeros fill
  end.

(** [s[:n]] *)
Fixpoint take (n : nat) (s : string) : string :=
  match n, s with
  | S n', String c s' => String c (take n' s')
  | _, _ => EmptyString
  end.

(** [s[n:]] *)
Fixpoint drop (n : nat) (s : string) : string :=
  match n, s with
  | S n', String _ s' => drop n' s'
  | _, _ => s
  end.

(** the character before the position reached after reading [w] *)
Fixpoint last_of (prev : option ascii) (w : string) : option ascii :=
  match w with
  | EmptyString => prev
  | String c w' => last_of (Some c) w'
  end.

End Str.

(** ** Exceptions and outcomes *)

Inductive exn : Type :=
| IndexError   (** list index out of range, unknown group name *)
| KeyError     (** a key that is not in the dictionary *)
| ReError.     (** [re.error] *)

Inductive outcome (A : Type) : Type :=
| Ret (a : A)
| Raise (e : exn).
Arguments Ret {A} a.
Arguments Raise {A} e.

(** ** The fragment of [re] the engine uses *)

Module Re.

(** Every quantifier in the engine's patterns applies to one character
    class, so repetition is over a class. *)
Inductive regex : Type :=
| Eps
| Class (p : ascii -> bool)                       (** one character *)
| Rep (p : ascii -> bool) (lo : nat) (hi : option nat)
                                                  (** greedy [{lo,hi}] *)
| WordB                                           (** [\b] *)
| NotAhead (r : regex)                            (** [(?!r)] *)
| Cat (r1 r2 : regex).

Definition lit (c : ascii) : regex := Class (Ascii.eqb c).
(** a literal under [re.IGNORECASE] *)
Definition lit_i (c : ascii) : regex :=
  Class (fun d => Ascii.eqb (Chr.lower d) (Chr.lower c)).

Fixpoint seq (rs : list regex) : regex :=
  match rs with
  | [] => Eps
  | r :: rs' => Cat r (seq rs')
  end.

Definition lits (s : string) : regex := seq (List.map lit (list_ascii_of_string s)).
Definition lits_i (s : string) : regex := seq (List.map lit_i (list_ascii_of_string s)).

Definition plus p := Rep p 1 None.
Definition star p := Rep p 0 None.
Definition opt p := Rep p 0 (Some 1%nat).
Definition exactly n p := Rep p n (Some n).

(** [\b]: the characters on the two sides differ in being word
    characters; outside the string counts as a non-word character. *)
Definition at_boundary (prev : option ascii) (s : string) : bool :=
  let before := match prev with Some c => Chr.is_word c | None => false end in
  let after := match s with String c _ => Chr.is_word c | EmptyString => false end in
  negb (Bool.eqb before after).

Definition hi_allows (hi : option nat) : bool :=
  match hi with Some O => false | _ => true end.
Definition hi_pred (hi : option nat) : option nat :=
  match hi with Some n => Some (Nat.pred n) | None => None end.

(** A continuation receives the character before the position reached,
    the rest of the subject and the number of characters read; [None]
    makes the matcher backtrack. *)
Definition cont (R : Type) : Type := option ascii -> string -> nat -> option R.

(** Greedy repetition: read as many characters as allowed, then give
    them back one at a time until the continuation accepts. *)
Fixpoint rep {R : Type} (p : ascii -> bool) (lo : nat) (hi : option nat)
    (prev : option ascii) (s : string) (n : nat) (k : cont R) : option R :=
  let stop := match lo with O => k prev s n | S _ => None end in
  match s with
  | String c s' =>
      if p c && hi_allows hi then
        match rep p (Nat.pred lo) (hi_pred hi) (Some c) s' (S n) k with
        | Some r => Some r
        | None => stop
        end
      else stop
  | EmptyString => stop
  end.

Fixpoint run {R : Type} (r : regex) (prev : option ascii) (s : string) (n : nat)
    (k : cont R) : option R :=
  match r with
  | Eps => k prev s n
  | Class p =>
      match s with
      | String c s' => if p c then k (Some c) s' (S n) else None
      | EmptyString => None
      end
  | Rep p lo hi => rep p lo hi prev s n k
  | WordB => if at_boundary prev s then k prev s n else None
  | NotAhead r' =>
      match run r' prev s n (fun _ _ _ => Some tt) with
      | Some _ => None
      | None => k prev s n
      end
  | Cat r1 r2 => run r1 prev s n (fun prev' s' n' => run r2 prev' s' n' k)
  end.

(** [pattern.match] at a position: the length of the match, if any. *)
Definition match_len (r : regex) (prev : option ascii) (s : string) : option nat :=
  run r prev s 0%nat (fun _ _ n => Some n).

(** The subject cut at the leftmost non-overlapping matches, as
    [Pattern.sub] scans it. *)
Inductive segment : Type :=
| Keep (c : ascii)        (** a character outside every match *)
| Hit (m : string).       (** a match *)

(** [skip] counts the characters of the current match still to pass.
    None of the engine's patterns matches the empty string (see
    [match_len_pos]); an empty match counts as no match. *)
Fixpoint scan (r : regex) (prev : option ascii) (s : string) (skip : nat)
    : list segment :=
  match s with
  | EmptyString => []
  | String c s' =>
      match skip with
      | S k => scan r (Some c) s' k
      | O =>
          match match_len r prev s with
          | Some (S n) => Hit (Str.take (S n) s) :: scan r (Some c) s' n
          | _ => Keep c :: scan r (Some c) s' O
          end
      end
  end.

Definition segments (r : regex) (text : string) : list segment :=
  scan r None text 0%nat.

(** *** Replacement by a function: [pattern.sub(callable, text)]

    The callable is called for each match, from left to right, on the
    state left by the previous call. *)

Fixpoint subst {S : Type} (repl : string -> S -> outcome string * S)
    (segs : list segment) (st : S) : outcome string * S :=
  match segs with
  | [] => (Ret EmptyString, st)
  | Keep c :: segs' =>
      match subst repl segs' st with
      | (Ret out, st') => (Ret (String c out), st')
      | (Raise e, st') => (Raise e, st')
      end
  | Hit m :: segs' =>
      match repl m st with
      | (Ret r, st1) =>
          match subst repl segs' st1 with
          | (Ret out, st2) => (Ret (r +:+ out), st2)
          | (Raise e, st2) => (Raise e, st2)
          end
      | (Raise e, st1) => (Raise e, st1)
      end
  end.

Definition sub_fn {S : Type} (r : regex) (repl : string -> S -> outcome string * S)
    (text : string) (st : S) : outcome string * S :=
  subst repl (segments r text) st.

(** *** Replacement by a template: [re.sub(pattern, repl, text)]

    [re._parser.parse_template] (CPython 3.11) for a pattern without
    groups.  The tokenizer reads one token ahead, so a backslash that ends
    the template raises as soon as the token before it is consumed. *)

Inductive token : Type :=
| TChar (c : ascii)
| TEsc (c : ascii)      (** a backslash and the character after it *)
| TDangling.            (** a backslash at the end of the template *)

Fixpoint tokenize (s : string) : list token :=
  match s with
  | EmptyString => []
  | String c s' =>
      if Ascii.eqb c "\" then
        match s' with
        | EmptyString => [TDangling]
        | String d s'' => TEsc d :: tokenize s''
        end
      else TChar c :: tokenize s'
  end.

Definition token_text (t : token) : string :=
  match t with
  | TChar c => String c EmptyString
  | TEsc c => String "\" (String c EmptyString)
  | TDangling => String "\" EmptyString
  end.

Definition next_is_dangling (toks : list token) : bool :=
  match toks with
  | TDangling :: _ => true
  | _ => false
  end.

Inductive part : Type :=
| PLit (s : string)
| PGroup0.              (** the whole match *)

(** [name.isidentifier()] *)
Definition isidentifier (s : string) : bool :=
  match s with
  | EmptyString => false
  | String c s' =>
      (Chr.is_alpha c || Ascii.eqb c "_") && Str.forallb Chr.is_word s'
  end.

(** digits of [int(name)] that are all zero, single underscores between *)
Fixpoint zero_digits (s : string) (after_digit : bool) : bool :=
  match s with
  | EmptyString => after_digit
  | String c s' =>
      if Ascii.eqb c "0" then zero_digits s' true
      else if Ascii.eqb c "_" then after_digit && zero_digits s' false
      else false
  end.

Fixpoint lstrip (s : string) : string :=
  match s with
  | String c s' => if Chr.is_blank c then lstrip s' else s
  | EmptyString => s
  end.

Fixpoint rstrip (s : string) : string :=
  match s with
  | String c s' =>
      match rstrip s' with
      | EmptyString => if Chr.is_blank c then EmptyString else String c EmptyString
      | t => String c t
      end
  | EmptyString => s
  end.

(** [int(name) == 0] without [ValueError] *)
Definition int_is_zero (name : string) : bool :=
  match rstrip (lstrip name) with
  | String c s' =>
      if Ascii.eqb c "+" || Ascii.eqb c "-" then zero_digits s' false
      else zero_digits (String c s') false
  | EmptyString => false
  end.

Definition octal (c : ascii) : nat := (Chr.code c - 48)%nat.

Definition escape_char (c : ascii) : option ascii :=
  if Ascii.eqb c "a" then Some (ascii_of_nat 7)
  else if Ascii.eqb c "b" then Some (ascii_of_nat 8)
  else if Ascii.eqb c "f" then Some (ascii_of_nat 12)
  else if Ascii.eqb c "n" then Some (ascii_of_nat 10)
  else if Ascii.eqb c "r" then Some (ascii_of_nat 13)
  else if Ascii.eqb c "t" then Some (ascii_of_nat 9)
  else if Ascii.eqb c "v" then Some (ascii_of_nat 11)
  else if Ascii.eqb c "\" then Some c
  else None.

Definition lit_char (c : ascii) : part := PLit (String c EmptyString).

(** The loop of [parse_template].  [name] is [Some] while the name of
    [\g<name>] is being read ([Tokenizer.getuntil]). *)
Fixpoint parse (toks : list token) (name : option string) (acc : list part)
    : outcome (list part) :=
  match toks with
  | [] =>
      match name with
      | None => Ret acc
      | Some _ => Raise ReError               (* missing >, unterminated name *)
      end
  | TDangling :: _ => Raise ReError           (* bad escape (end of pattern) *)
  | t :: rest =>
      if next_is_dangling rest then Raise ReError else
      match name with
      | Some nm =>
          match t with
          | TChar c =>
              if Ascii.eqb c ">" then
                match nm with
                | EmptyString => Raise ReError              (* missing group name *)
                | _ =>
                    if isidentifier nm then Raise IndexError (* unknown group name *)
                    else if int_is_zero nm then parse rest None (acc ++ [PGroup0])
                    else Raise ReError    (* bad character / invalid reference *)
                end
              else parse rest (Some (nm +:+ token_text t)) acc
          | _ => parse rest (Some (nm +:+ token_text t)) acc
          end
      | None =>
          match t with
          | TChar c => parse rest None (acc ++ [lit_char c])
          | TDangling => Raise ReError
          | TEsc c =>
              if Ascii.eqb c "g" then
                match rest with
                | TChar d :: rest1 =>
                    if Ascii.eqb d "<" then
                      if next_is_dangling rest1 then Raise ReError
                      else parse rest1 (Some EmptyString) acc
                    else Raise ReError                      (* missing < *)
                | _ => Raise ReError
                end
              else if Ascii.eqb c "0" then
                match rest with
                | TChar d1 :: rest1 =>
                    if Chr.is_octdigit d1 then
                      if next_is_dangling rest1 then Raise ReError else
                      match rest1 with
                      | TChar d2 :: rest2 =>
                          if Chr.is_octdigit d2 then
                            if next_is_dangling rest2 then Raise ReError
                            else parse rest2 None
                                   (acc ++ [lit_char (ascii_of_nat
                                      ((octal d1 * 8 + octal d2) mod 256))])
                          else parse rest1 None (acc ++ [lit_char (ascii_of_nat (octal d1))])
                      | _ => parse rest1 None (acc ++ [lit_char (ascii_of_nat (octal d1))])
                      end
                    else parse rest None (acc ++ [lit_char (ascii_of_nat 0)])
                | _ => parse rest None (acc ++ [lit_char (ascii_of_nat 0)])
                end
              else if Chr.is_digit c then
                (* a reference to group 1..99 raises: the pattern has no
                   group; three octal digits are a character *)
                match rest with
                | TChar d1 :: rest1 =>
                    if Chr.is_digit d1 then
                      if next_is_dangling rest1 then Raise ReError else
                      match rest1 with
                      | TChar d2 :: rest2 =>
                          if Chr.is_octdigit c && Chr.is_octdigit d1 && Chr.is_octdigit d2 then
                            if next_is_dangling rest2 then Raise ReError else
                            let v := (octal c * 64 + octal d1 * 8 + octal d2)%nat in
                            if (255 <? v)%nat then Raise ReError
                            else parse rest2 None (acc ++ [lit_char (ascii_of_nat v)])
                          else Raise ReError
                      | _ => Raise ReError
                      end
                    else Raise ReError
                | _ => Raise ReError
                end
              else
                match escape_char c with
                | Some e => parse rest None (acc ++ [lit_char e])
                | None =>
                    if Chr.is_alpha c then Raise ReError     (* bad escape *)
                    else parse rest None (acc ++ [PLit (token_text t)])
                end
          end
      end
  end.

Definition parse_template (source : string) : outcome (list part) :=
  parse (tokenize source) None [].

(** [expand_template] *)
Fixpoint expand (parts : list part) (m : string) : string :=
  match parts with
  | [] => EmptyString
  | PLit s :: ps => s +:+ expand ps m
  | PGroup0 :: ps => m +:+ expand ps m
  end.

Fixpoint render (segs : list segment) (f : string -> string) : string :=
  match segs with
  | [] => EmptyString
  | Keep c :: segs' => String c (render segs' f)
  | Hit m :: segs' => f m +:+ render segs' f
  end.

(** A template without a backslash is used as it is; any other is
    parsed before the subject is scanned. *)
Definition sub_template (r : regex) (repl text : string) : outcome string :=
  if negb (Str.contains "\" repl) then
    Ret (render (segments r text) (fun _ => repl))
  else
    match parse_template repl with
    | Ret parts => Ret (render (segments r text) (expand parts))
    | Raise e => Raise e
    end.

(** What a successful run of a pattern has read: [den r prev w rest]
    says that [r], started after the character [prev], reads [w] and
    stops before [rest]. *)
Fixpoint den (r : regex) (prev : option ascii) (w rest : string) : Prop :=
  match r with
  | Eps => w = ""
  | Class p => exists c, w = String c "" /\ p c = true
  | Rep p lo hi =>
      Str.forallb p w = true /\ (lo <= String.length w)%nat /\
      match hi with Some h => (String.length w <= h)%nat | None => True end
  | WordB => w = "" /\ at_boundary prev rest = true
  | NotAhead r' =>
      w = "" /\ exists n, run r' prev rest n (fun _ _ _ => Some tt) = None
  | Cat r1 r2 =>
      exists w1 w2, w = w1 +:+ w2 /\ den r1 prev w1 (w2 +:+ rest) /\
                    den r2 (Str.last_of prev w1) w2 rest
  end.

End Re.

(** ** The engine: class [PIIDeidentifier] *)

Record PIIDeidentifier : Type := mkPII {
  email_counter : Z;
  name_counter : Z;
  phone_counter : Z;
  id_counter : Z;
  email_mappings : gmap string string;
  name_mappings : gmap string string;
  phone_mappings : gmap string string;
  id_mappings : gmap string string
}.

(** [\b[A-Za-z0-9._%+-]+@[A-Za-z0-9.-]+\.[A-Z|a-z]{2,}\b] *)
Definition local_char (c : ascii) : bool :=
  Chr.is_alpha c || Chr.is_digit c || Chr.one_of "._%+-" c.
Definition domain_char (c : ascii) : bool :=
  Chr.is_alpha c || Chr.is_digit c || Chr.one_of ".-" c.
Definition tld_char (c : ascii) : bool :=
  Chr.is_alpha c || Ascii.eqb c "|".

Definition email_pattern : Re.regex :=
  Re.seq [Re.WordB; Re.plus local_char; Re.lit "@"; Re.plus domain_char;
          Re.lit "."; Re.Rep tld_char 2 None; Re.WordB].

Definition digit29 : ascii -> bool := Chr.between 50 57.

(** [\+61\s?\d+\s?\d+\s?\d+] *)
Definition phone_plus61 : Re.regex :=
  Re.seq [Re.lits "+61"; Re.opt Chr.is_space; Re.plus Chr.is_digit;
          Re.opt Chr.is_space; Re.plus Chr.is_digit;
          Re.opt Chr.is_space; Re.plus Chr.is_digit].

(** [\b0\d{3}\s?\d{3}\s?\d{3}\b] *)
Definition phone_mobile : Re.regex :=
  Re.seq [Re.WordB; Re.lit "0"; Re.exactly 3 Chr.is_digit;
          Re.opt Chr.is_space; Re.exactly 3 Chr.is_digit;
          Re.opt Chr.is_space; Re.exactly 3 Chr.is_digit; Re.WordB].

(** [\b\d{9,10}\b] *)
Definition phone_digits : Re.regex :=
  Re.seq [Re.WordB; Re.Rep Chr.is_digit 9 (Some 10%nat); Re.WordB].

(** [\b\(\d{2}\)\s?\d{4}\s?\d{4}\b] *)
Definition phone_area : Re.regex :=
  Re.seq [Re.WordB; Re.lit "("; Re.exactly 2 Chr.is_digit; Re.lit ")";
          Re.opt Chr.is_space; Re.exactly 4 Chr.is_digit;
          Re.opt Chr.is_space; Re.exactly 4 Chr.is_digit; Re.WordB].

(** [\b0[2-9]\s?\d{4}\s?\d{4}\b] *)
Definition phone_landline : Re.regex :=
  Re.seq [Re.WordB; Re.lit "0"; Re.Class digit29;
          Re.opt Chr.is_space; Re.exactly 4 Chr.is_digit;
          Re.opt Chr.is_space; Re.exactly 4 Chr.is_digit; Re.WordB].

Definition phone_patterns : list Re.regex :=
  [phone_plus61; phone_mobile; phone_digits; phone_area; phone_landline].

(** The dictionary [specific_names], in insertion order. *)
Definition specific_names : list (string * string) :=
  [ ("Zoe W", "Participant A");
    ("James B", "Participant B");
    ("Jason W", "Participant C");
    ("John Smith", "Participant D") ].

Definition common_first_names : list string :=
  [ "Zoe"; "James"; "Jason"; "John"; "Jane"; "Michael"; "Sarah";
    "David"; "Lisa"; "Robert"; "Mary"; "William"; "Patricia" ].

(** [\bID:\s*\d+\b] *)
Definition id_label : Re.regex :=
  Re.seq [Re.WordB; Re.lits "ID:"; Re.star Chr.is_space;
          Re.plus Chr.is_digit; Re.WordB].

(** [\bMobile:\s*\d+\b] *)
Definition mobile_label : Re.regex :=
  Re.seq [Re.WordB; Re.lits "Mobile:"; Re.star Chr.is_space;
          Re.plus Chr.is_digit; Re.WordB].

Definition id_patterns : list Re.regex := [id_label; mobile_label].

(** [re.escape(original_name)] compiled with [re.IGNORECASE] *)
Definition full_name_pattern (original_name : string) : Re.regex :=
  Re.lits_i original_name.

(** [rf'\b{name}\b(?!\s+[A-Z])'], for a name made of letters *)
Definition first_name_pattern (name : string) : Re.regex :=
  Re.seq [Re.WordB; Re.lits name; Re.WordB;
          Re.NotAhead (Re.Cat (Re.plus Chr.is_space) (Re.Class Chr.is_upper))].

(** [PIIDeidentifier()] *)
Definition init : PIIDeidentifier :=
  {| email_counter := 1; name_counter := 1; phone_counter := 1; id_counter := 1;
     email_mappings := ∅; name_mappings := ∅;
     phone_mappings := ∅; id_mappings := ∅ |}.

(** *** Methods as state transformers that may raise *)

Definition M (A : Type) : Type := PIIDeidentifier -> outcome A * PIIDeidentifier.

Definition ret {A : Type} (a : A) : M A := fun self => (Ret a, self).
Definition raise {A : Type} (e : exn) : M A := fun self => (Raise e, self).
Definition bind {A B : Type} (m : M A) (f : A -> M B) : M B :=
  fun self =>
    match m self with
    | (Ret a, self') => f a self'
    | (Raise e, self') => (Raise e, self')
    end.
Definition lift {A : Type} (o : outcome A) : M A := fun self => (o, self).

Notation "x <- m ;; k" := (bind m (fun x => k))
  (at level 100, m at level 99, right associativity).
Notation "m ;;; k" := (bind m (fun _ => k))
  (at level 100, k at level 100, right associativity).

Definition set_email_mapping (k v : string) : M unit := fun self =>
  (Ret tt, mkPII (email_counter self) (name_counter self) (phone_counter self)
                 (id_counter self) (<[k := v]> (email_mappings self))
                 (name_mappings self) (phone_mappings self) (id_mappings self)).

Definition set_phone_mapping (k v : string) : M unit := fun self =>
  (Ret tt, mkPII (email_counter self) (name_counter self) (phone_counter self)
                 (id_counter self) (email_mappings self) (name_mappings self)
                 (<[k := v]> (phone_mappings self)) (id_mappings self)).

Definition set_id_mapping (k v : string) : M unit := fun self =>
  (Ret tt, mkPII (email_counter self) (name_counter self) (phone_counter self)
                 (id_counter self) (email_mappings self) (name_mappings self)
                 (phone_mappings self) (<[k := v]> (id_mappings self))).

Definition incr_phone_counter : M unit := fun self =>
  (Ret tt, mkPII (email_counter self) (name_counter self) (phone_counter self + 1)
                 (id_counter self) (email_mappings self) (name_mappings self)
                 (phone_mappings self) (id_mappings self)).

Definition incr_id_counter : M unit := fun self =>
  (Ret tt, mkPII (email_counter self) (name_counter self) (phone_counter self)
                 (id_counter self + 1) (email_mappings self) (name_mappings self)
                 (phone_mappings self) (id_mappings self)).

(** [d[k]] *)
Definition getitem (d : PIIDeidentifier -> gmap string string) (k : string)
    : M string := fun self =>
  match d self !! k with
  | Some v => (Ret v, self)
  | None => (Raise KeyError, self)
  end.

(** [k not in d] *)
Definition absent (d : PIIDeidentifier -> gmap string string) (k : string)
    : M bool := fun self =>
  (Ret (match d self !! k with None => true | Some _ => false end), self).

(** [l[i]] *)
Definition index {A : Type} (l : list A) (i : nat) : M A :=
  match nth_error l i with
  | Some a => ret a
  | None => raise IndexError
  end.

(** *** [deidentify_emails] *)

Definition replace_email (file_identifier : string) (email : string) : M string :=
  new <- absent email_mappings email ;;
  (if new : bool then
     domain <- index (Str.split "@" email) 1 ;;
     let replacement :=
       if Str.contains "gmail.com" domain then file_identifier +:+ "@gmail.com"
       else if Str.contains "hotmail.com" domain then file_identifier +:+ "@hotmail.com"
       else file_identifier +:+ "@example.com" in
     set_email_mapping email replacement
   else ret tt) ;;;
  getitem email_mappings email.

Definition deidentify_emails (text : string) (file_identifier : string) : M string :=
  Re.sub_fn email_pattern (replace_email file_identifier) text.

(** *** [deidentify_phones] *)

Definition replace_phone (phone : string) : M string :=
  new <- absent phone_mappings phone ;;
  (if new : bool then
     fun self =>
       let counter := Str.zfill 3 (Str.of_int (phone_counter self)) in
       let replacement :=
         if Str.startswith "0" phone then "0XXX XXX " +:+ counter
         else if Str.contains "+61" phone then "+61 XXX XXX " +:+ counter
         else "XXX XXX " +:+ counter in
       (set_phone_mapping phone replacement ;;; incr_phone_counter) self
   else ret tt) ;;;
  getitem phone_mappings phone.

(** [for pattern in patterns: text = pattern.sub(repl, text)] *)
Fixpoint sub_each (patterns : list Re.regex) (repl : string -> M string)
    (text : string) : M string :=
  match patterns with
  | [] => ret text
  | pattern :: patterns' =>
      text' <- Re.sub_fn pattern repl text ;;
      sub_each patterns' repl text'
  end.

Definition deidentify_phones (text : string) : M string :=
  sub_each phone_patterns replace_phone text.

(** *** [deidentify_names] *)

(** [for name in names: text = re.sub(pattern(name), repl, text)] *)
Fixpoint sub_names (pattern : string -> Re.regex) (names : list string)
    (repl : string) (text : string) : outcome string :=
  match names with
  | [] => Ret text
  | name :: names' =>
      match Re.sub_template (pattern name) repl text with
      | Ret text' => sub_names pattern names' repl text'
      | Raise e => Raise e
      end
  end.

(** The method with the dictionary of full names as a parameter: only
    its keys are read. *)
Definition deidentify_names_in (names : list (string * string))
    (text : string) (file_identifier : string) : M string :=
  text <- lift (sub_names full_name_pattern (List.map fst names) file_identifier text) ;;
  lift (sub_names first_name_pattern common_first_names file_identifier text).

Definition deidentify_names : string -> string -> M string :=
  deidentify_names_in specific_names.

(** *** [deidentify_ids] *)

Definition replace_id (id_text : string) : M string :=
  new <- absent id_mappings id_text ;;
  (if new : bool then
     fun self =>
       let replacement :=
         if Str.contains "ID:" id_text
         then "ID: " +:+ Str.zfill 6 (Str.of_int (id_counter self))
         else if Str.contains "Mobile:" id_text
         then "Mobile: XXXX" +:+ Str.zfill 3 (Str.of_int (id_counter self))
         else "ID_" +:+ Str.of_int (id_counter self) in
       (set_id_mapping id_text replacement ;;; incr_id_counter) self
   else ret tt) ;;;
  getitem id_mappings id_text.

Definition deidentify_ids (text : string) : M string :=
  sub_each id_patterns replace_id text.

(** *** [deidentify_text] *)

Definition deidentify_text (text : string) (file_identifier : string) : M string :=
  text <- deidentify_emails text (Str.lower file_identifier) ;;
  text <- deidentify_phones text ;;
  text <- deidentify_names text (Str.upper file_identifier) ;;
  text <- deidentify_ids text ;;
  ret text.

(** ** Definitions used to state the properties *)

(** a character of ASCII: a code below 128 *)
Definition ascii_char (c : ascii) : bool := (Chr.code c <? 128)%nat.

(** a text of ASCII characters: on such a text the classes [Chr.is_digit],
    [Chr.is_space], [Chr.is_word] and the case conversions are those of
    Python's [str] and [re] *)
Definition ascii_text (s : string) : bool := Str.forallb ascii_char s.


(** the character before a position, if any, is of ASCII *)
Definition ascii_before (prev : option ascii) : bool :=
  match prev with
  | Some c => ascii_char c
  | None => true
  end.

(** The template has no backslash followed by a letter: the escapes on
    which the versions of [re] differ. *)
Definition letter_escape_free (repl : string) : bool :=
  forallb (fun t => match t with
                    | Re.TEsc c => negb (Chr.is_alpha c)
                    | _ => true
                    end)
          (Re.tokenize repl).

(** a character other than [@] *)
Definition no_at (c : ascii) : bool := negb (Ascii.eqb c "@").

(** a fact about one character, by its 256 cases *)
Ltac by_cases_on c :=
  destruct c as [[] [] [] [] [] [] [] []]; vm_compute; intros; congruence.

(** the replacement chosen for a new email with this domain *)
Definition email_for (file_identifier domain : string) : string :=
  if Str.contains "gmail.com" domain then file_identifier +:+ "@gmail.com"
  else if Str.contains "hotmail.com" domain then file_identifier +:+ "@hotmail.com"
  else file_identifier +:+ "@example.com".

(** the instance once [k] is mapped to [v] *)
Definition with_email (k v : string) (self : PIIDeidentifier) : PIIDeidentifier :=
  snd (set_email_mapping k v self).

(** the replacement chosen for a new phone value at this counter *)
Definition phone_for (phone : string) (counter : Z) : string :=
  if Str.startswith "0" phone then "0XXX XXX " +:+ Str.zfill 3 (Str.of_int counter)
  else if Str.contains "+61" phone then "+61 XXX XXX " +:+ Str.zfill 3 (Str.of_int counter)
  else "XXX XXX " +:+ Str.zfill 3 (Str.of_int counter).

(** the instance once [k] is mapped to [v] and the counter has moved *)
Definition with_phone (k v : string) (self : PIIDeidentifier) : PIIDeidentifier :=
  snd (incr_phone_counter (snd (set_phone_mapping k v self))).

(** the replacement chosen for a new identifier at this counter *)
Definition id_for (id_text : string) (counter : Z) : string :=
  if Str.contains "ID:" id_text then "ID: " +:+ Str.zfill 6 (Str.of_int counter)
  else if Str.contains "Mobile:" id_text
  then "Mobile: XXXX" +:+ Str.zfill 3 (Str.of_int counter)
  else "ID_" +:+ Str.of_int counter.

(** the instance once [k] is mapped to [v] and the counter has moved *)
Definition with_id (k v : string) (self : PIIDeidentifier) : PIIDeidentifier :=
  snd (incr_id_counter (snd (set_id_mapping k v self))).

(** every entry of the tables of [a] is an entry of the tables of [b] *)
Definition grows (a b : PIIDeidentifier) : Prop :=
  email_mappings a ⊆ email_mappings b /\
  phone_mappings a ⊆ phone_mappings b /\
  id_mappings a ⊆ id_mappings b.

(** An event of an instance's lifetime is one call of a method, or one
    call of a replacement function on a match in the course of a pass. *)
Inductive event : Type :=
| EvEmail (file_identifier email : string)
| EvPhone (phone : string)
| EvId (id_text : string)
| CallEmails (text file_identifier : string)
| CallPhones (text : string)
| CallNames (text file_identifier : string)
| CallIds (text : string)
| CallText (text file_identifier : string).

Definition run_event (ev : event) : M string :=
  match ev with
  | EvEmail file_identifier email => replace_email file_identifier email
  | EvPhone phone => replace_phone phone
  | EvId id_text => replace_id id_text
  | CallEmails text file_identifier => deidentify_emails text file_identifier
  | CallPhones text => deidentify_phones text
  | CallNames text file_identifier => deidentify_names text file_identifier
  | CallIds text => deidentify_ids text
  | CallText text file_identifier => deidentify_text text file_identifier
  end.

(** The instance after a sequence of events; it lives on when a call
    raises. *)
Definition after (evs : list event) (self : PIIDeidentifier) : PIIDeidentifier :=
  fold_left (fun st ev => snd (run_event ev st)) evs self.

(** the matches of a scan, in their order *)
Fixpoint hits (segs : list Re.segment) : list string :=
  match segs with
  | [] => []
  | Re.Keep _ :: segs' => hits segs'
  | Re.Hit m :: segs' => m :: hits segs'
  end.

(** the replacement a table shows for a match *)
Definition shown (table : gmap string string) (m : string) : string :=
  default "" (table !! m).

(** [m.split('@')] has two pieces *)
Definition has_domain (m : string) : Prop :=
  exists local domain, Str.split "@" m = [local; domain].

(** [s] starts with [name], letters compared without case *)
Fixpoint ci_prefix (name s : string) : bool :=
  match name, s with
  | EmptyString, _ => true
  | String a name', String b s' =>
      Ascii.eqb (Chr.lower b) (Chr.lower a) && ci_prefix name' s'
  | String _ _, EmptyString => false
  end.

(** In the words of the specification: every occurrence of [name] in the
    text, as a literal substring compared without case, becomes [repl].
    Occurrences are taken from left to right and do not overlap; [skip]
    counts the characters of the current occurrence still to pass. *)
Fixpoint spec_replace_occurrences (name repl s : string) (skip : nat) : string :=
  match s with
  | EmptyString => EmptyString
  | String c s' =>
      match skip with
      | S k => spec_replace_occurrences name repl s' k
      | O =>
          if ci_prefix name s
          then repl +:+ spec_replace_occurrences name repl s' (String.length name - 1)
          else String c (spec_replace_occurrences name repl s' 0)
      end
  end.

(** [re.search(r, text) is not None] *)
Definition search (r : Re.regex) (text : string) : bool :=
  existsb (fun seg => match seg with Re.Hit _ => true | Re.Keep _ => false end)
          (Re.segments r text).

Definition differs (c : ascii) (d : ascii) : bool := negb (Ascii.eqb d c).

(** the pattern has no match in the text *)
Definition free_of (r : Re.regex) (text : string) : Prop :=
  forall m, ~ In (Re.Hit m) (Re.segments r text).

(** a number of characters that every match of the pattern has *)
Fixpoint min_len (r : Re.regex) : nat :=
  match r with
  | Re.Eps | Re.WordB | Re.NotAhead _ => 0
  | Re.Class _ => 1
  | Re.Rep _ lo _ => lo
  | Re.Cat r1 r2 => min_len r1 + min_len r2
  end.

(** ** Definitions used to state the further properties *)

(** the longest run of digits that ends the string *)
Fixpoint trailing_digits (s : string) : string :=
  match s with
  | EmptyString => EmptyString
  | String c s' =>
      let t := trailing_digits s' in
      if (String.length t =? String.length s')%nat && Chr.is_digit c
      then String c t else t
  end.

(** the number that a string of decimal digits writes *)
Definition read_number (s : string) : option Z :=
  match NilEmpty.uint_of_string s with
  | Some d => Some (Z.of_uint d)
  | None => None
  end.

(** the number a placeholder ends with *)
Definition placeholder_number (v : string) : option Z :=
  read_number (trailing_digits v).

(** The counters count the entries of their tables, and the fields that
    no method writes are as [__init__] left them. *)
Definition counted (self : PIIDeidentifier) : Prop :=
  phone_counter self = (1 + Z.of_nat (size (phone_mappings self)))%Z /\
  id_counter self = (1 + Z.of_nat (size (id_mappings self)))%Z /\
  email_counter self = 1%Z /\ name_counter self = 1%Z /\
  name_mappings self = ∅.

(** Each entry of the table carries, in the format [fmt] of its
    category, a number that the counter has passed, and no two entries are
    equal. *)
Definition numbered (fmt : string -> Z -> string) (table : gmap string string)
    (counter : Z) : Prop :=
  (1 <= counter)%Z /\
  (forall k v, table !! k = Some v ->
     exists c, (1 <= c < counter)%Z /\ v = fmt k c) /\
  (forall k1 k2 v, table !! k1 = Some v -> table !! k2 = Some v -> k1 = k2).

Definition phones_numbered (self : PIIDeidentifier) : Prop :=
  numbered phone_for (phone_mappings self) (phone_counter self).

Definition ids_numbered (self : PIIDeidentifier) : Prop :=
  numbered id_for (id_mappings self) (id_counter self).

(** every word that the pattern reads has a character in the class [q] *)
Definition reads (q : ascii -> bool) (r : Re.regex) : Prop :=
  forall prev w rest,
    Re.den r prev w rest -> Str.forallb (fun c => negb (q c)) w = false.

(** every word that the pattern reads is made of characters in [q] *)
Definition reads_only (q : ascii -> bool) (r : Re.regex) : Prop :=
  forall prev w rest, Re.den r prev w rest -> Str.forallb q w = true.

(** not a decimal digit *)
Definition no_digit (c : ascii) : bool := negb (Chr.is_digit c).

(** The text goes on with blanks and then a capital letter; [seen] says
    that a blank has been passed. *)
Fixpoint capital_after_blanks (seen : bool) (s : string) : bool :=
  match s with
  | EmptyString => false
  | String c s' =>
      if Chr.is_space c then capital_after_blanks true s'
      else seen && Chr.is_upper c
  end.

(** one blank or more, then a capital letter: what [(?!\s+[A-Z])] refuses *)
Definition followed_by_capital (s : string) : bool := capital_after_blanks false s.

(** the text is at its end or goes on with a character that is not a
    word character *)
Definition word_ends (s : string) : bool :=
  match s with
  | EmptyString => true
  | String c _ => negb (Chr.is_word c)
  end.

(** The name pass raises what the parsing of its template raises. *)
Definition template_error (repl : string) : option exn :=
  if negb (Str.contains "\" repl) then None
  else match Re.parse_template repl with
       | Ret _ => None
       | Raise e => Some e
       end.

(** *** [process_file]: the identifier and the name of the output

    [name] stands for [Path(file_path).name]. *)

(** [s.rfind(c)] for one character: the last index of [c], or -1 *)
Fixpoint rfind (c : ascii) (s : string) : Z :=
  match s with
  | EmptyString => (-1)%Z
  | String d s' =>
      let r := rfind c s' in
      if (0 <=? r)%Z then (r + 1)%Z
      else if Ascii.eqb d c then 0%Z else (-1)%Z
  end.

(** [PurePath.stem]: the name without its last suffix *)
Definition stem (name : string) : string :=
  let i := rfind "." name in
  if (0 <? i)%Z && (i <? Z.of_nat (String.length name) - 1)%Z
  then Str.take (Z.to_nat i) name
  else name.

(** the identifier that [process_file] hands to [deidentify_text] *)
Definition file_identifier_for (name : string) : string :=
  let file_stem := stem name in
  if Str.startswith "deidentified_" file_stem then Str.drop 13 file_stem
  else file_stem.

(** [f"deidentified_{Path(file_path).name}"] *)
Definition output_name (name : string) : string := "deidentified_" +:+ name.

(** * Properties *)

(** ** Strings *)

Lemma append_nil_r (s : string) : s +:+ "" = s.
Proof. induction s as [|c s IH]; simpl; [reflexivity | now rewrite IH]. Qed.

Lemma append_assoc (a b c : string) : (a +:+ b) +:+ c = a +:+ (b +:+ c).
Proof. induction a as [|x a IH]; simpl; [reflexivity | now rewrite IH]. Qed.

Lemma length_append (a b : string) :
  String.length (a +:+ b) = (String.length a + String.length b)%nat.
Proof. induction a as [|x a IH]; simpl; [reflexivity | now rewrite IH]. Qed.

Lemma take_append (w rest : string) : Str.take (String.length w) (w +:+ rest) = w.
Proof. induction w as [|c w IH]; simpl; [now destruct rest | now rewrite IH]. Qed.

Lemma last_of_append (prev : option ascii) (a b : string) :
  Str.last_of prev (a +:+ b) = Str.last_of (Str.last_of prev a) b.
Proof. revert prev; induction a as [|c a IH]; intros prev; simpl; [reflexivity | apply IH]. Qed.

Lemma forallb_append (p : ascii -> bool) (a b : string) :
  Str.forallb p (a +:+ b) = Str.forallb p a && Str.forallb p b.
Proof.
  induction a as [|c a IH]; simpl; [reflexivity|].
  now rewrite IH, andb_assoc.
Qed.

Lemma forallb_impl (p q : ascii -> bool) (s : string) :
  (forall c, p c = true -> q c = true) ->
  Str.forallb p s = true -> Str.forallb q s = true.
Proof.
  intros Hpq; induction s as [|c s IH]; simpl; [reflexivity|].
  intros [Hc Hs]%andb_true_iff. rewrite (Hpq _ Hc). now apply IH.
Qed.

(** A piece without the separator is not split. *)
Lemma split_none (sep : ascii) (s : string) :
  Str.forallb (fun c => negb (Ascii.eqb c sep)) s = true ->
  Str.split sep s = [s].
Proof.
  induction s as [|c s IH]; simpl; [reflexivity|].
  intros [Hc Hs]%andb_true_iff.
  apply negb_true_iff in Hc. rewrite Hc, (IH Hs). reflexivity.
Qed.

(** The first piece ends at the first separator. *)
Lemma split_first (sep : ascii) (a b : string) :
  Str.forallb (fun c => negb (Ascii.eqb c sep)) a = true ->
  Str.split sep (a +:+ String sep b) = a :: Str.split sep b.
Proof.
  induction a as [|c a IH]; simpl.
  - intros _. now rewrite Ascii.eqb_refl.
  - intros [Hc Ha]%andb_true_iff.
    apply negb_true_iff in Hc. rewrite Hc, (IH Ha). reflexivity.
Qed.

(** ** The matcher *)

Module ReFacts.
Import Re.

Lemma rep_sound {R : Type} (p : ascii -> bool) (s : string) :
  forall lo hi prev n (k : cont R) x,
    rep p lo hi prev s n k = Some x ->
    exists w rest, s = w +:+ rest /\ den (Rep p lo hi) prev w rest /\
                   k (Str.last_of prev w) rest (n + String.length w)%nat = Some x.
Proof.
  induction s as [|c s IH]; intros lo hi prev n k x H.
  - simpl in H. destruct lo; [|discriminate].
    exists "", "". simpl. rewrite Nat.add_0_r.
    repeat split; auto. destruct hi; lia.
  - simpl in H.
    assert (Hstop : match lo with O => k prev (String c s) n | S _ => None end = Some x ->
                    exists w rest, String c s = w +:+ rest /\
                      den (Rep p lo hi) prev w rest /\
                      k (Str.last_of prev w) rest (n + String.length w)%nat = Some x).
    { intros Hk. destruct lo; [|discriminate].
      exists "", (String c s). simpl. rewrite Nat.add_0_r.
      repeat split; auto. destruct hi; lia. }
    destruct (p c && hi_allows hi) eqn:Hc; [|auto].
    destruct (rep p (Nat.pred lo) (hi_pred hi) (Some c) s (S n) k) as [y|] eqn:Hr; [|auto].
    injection H as ->.
    apply IH in Hr as (w & rest & -> & (Hw & Hlo & Hhi) & Hk).
    apply andb_true_iff in Hc as [Hpc Hall].
    exists (String c w), rest. simpl. rewrite Hpc, Hw.
    replace (n + S (String.length w))%nat with (S n + String.length w)%nat by lia.
    repeat split; auto; [lia|].
    destruct hi as [[|h]|]; simpl in *; try discriminate; auto; lia.
Qed.

Lemma run_sound {R : Type} (r : regex) :
  forall prev s n (k : cont R) x,
    run r prev s n k = Some x ->
    exists w rest, s = w +:+ rest /\ den r prev w rest /\
                   k (Str.last_of prev w) rest (n + String.length w)%nat = Some x.
Proof.
  induction r as [|p|p lo hi| |r' IH|r1 IH1 r2 IH2]; intros prev s n k x H; simpl in H.
  - exists "", s. simpl. rewrite Nat.add_0_r. auto.
  - destruct s as [|c s]; [discriminate|].
    destruct (p c) eqn:Hp; [|discriminate].
    exists (String c ""), s. simpl. replace (n + 1)%nat with (S n) by lia.
    repeat split; eauto.
  - now apply rep_sound.
  - destruct (at_boundary prev s) eqn:Hb; [|discriminate].
    exists "", s. simpl. rewrite Nat.add_0_r. auto.
  - destruct (run r' prev s n (fun _ _ _ => Some tt)) eqn:Hr; [discriminate|].
    exists "", s. simpl. rewrite Nat.add_0_r. eauto.
  - apply IH1 in H as (w1 & rest1 & -> & H1 & H).
    apply IH2 in H as (w2 & rest & -> & H2 & H).
    exists (w1 +:+ w2), rest.
    rewrite append_assoc, last_of_append, length_append, Nat.add_assoc.
    repeat split; auto. simpl. eauto.
Qed.

(** A match of length [n] at a position is a word of the pattern that
    starts the subject there. *)
Lemma match_len_sound (r : regex) (prev : option ascii) (s : string) (n : nat) :
  match_len r prev s = Some n ->
  exists w rest, s = w +:+ rest /\ den r prev w rest /\ String.length w = n.
Proof.
  intros H. apply run_sound in H as (w & rest & -> & Hd & Hk).
  injection Hk as <-. eauto.
Qed.

(** Each match reported by the scan is a non-empty match at some
    position of the subject. *)
Lemma scan_hit (r : regex) (m : string) (s : string) :
  forall prev skip,
    In (Hit m) (scan r prev s skip) ->
    exists prev' w rest, den r prev' w rest /\ m = w /\ w <> "".
Proof.
  induction s as [|c s IH]; intros prev skip H; simpl in H; [contradiction|].
  destruct skip as [|k]; [|eauto].
  destruct (match_len r prev (String c s)) as [[|n]|] eqn:Hm.
  - destruct H as [H|H]; [discriminate | eauto].
  - destruct H as [H|H]; [|eauto].
    injection H as <-.
    apply match_len_sound in Hm as (w & rest & Hs & Hd & Hn).
    change (String c (Str.take n s)) with (Str.take (S n) (String c s)).
    rewrite Hs, <- Hn, take_append.
    exists prev, w, rest. repeat split; auto.
    intros ->. discriminate.
  - destruct H as [H|H]; [discriminate | eauto].
Qed.

End ReFacts.

(** ** The shape of a matched email *)

Lemma local_char_no_at (c : ascii) : local_char c = true -> no_at c = true.
Proof. by_cases_on c. Qed.

Lemma domain_char_no_at (c : ascii) : domain_char c = true -> no_at c = true.
Proof. by_cases_on c. Qed.

Lemma tld_char_no_at (c : ascii) : tld_char c = true -> no_at c = true.
Proof. by_cases_on c. Qed.

(** A match of the email pattern is [local@host.tld]. *)
Lemma email_hit_shape (text m : string) :
  In (Re.Hit m) (Re.segments email_pattern text) ->
  exists local host tld,
    m = local +:+ String "@" (host +:+ String "." tld) /\
    Str.forallb local_char local = true /\ (1 <= String.length local)%nat /\
    Str.forallb domain_char host = true /\ (1 <= String.length host)%nat /\
    Str.forallb tld_char tld = true /\ (2 <= String.length tld)%nat.
Proof.
  intros H. apply ReFacts.scan_hit in H as (prev & w & rest & Hd & -> & _).
  cbn [email_pattern Re.seq Re.den Re.plus Re.lit] in Hd.
  destruct Hd as (w0 & w1 & -> & [-> _] & local & w2 & -> & (Hl & Hl1 & _) &
                  a & w3 & -> & (ca & -> & Ha) & host & w4 & -> & (Hh & Hh1 & _) &
                  d & w5 & -> & (cd & -> & Hdot) & tld & w6 & -> & (Ht & Ht2 & _) &
                  w7 & w8 & -> & [-> _] & ->).
  apply Ascii.eqb_eq in Ha as <-. apply Ascii.eqb_eq in Hdot as <-.
  exists local, host, tld. simpl. rewrite !append_nil_r.
  repeat split; auto.
Qed.

Lemma email_split (local domain : string) :
  Str.forallb no_at local = true -> Str.forallb no_at domain = true ->
  Str.split "@" (local +:+ String "@" domain) = [local; domain].
Proof.
  intros Hl Hd. rewrite split_first by exact Hl. now rewrite split_none.
Qed.

(** The domain of a matched email is the piece [email.split('@')[1]]. *)
Lemma email_hit_split (text m : string) :
  In (Re.Hit m) (Re.segments email_pattern text) ->
  exists local domain,
    m = local +:+ String "@" domain /\ Str.split "@" m = [local; domain] /\
    Str.forallb local_char local = true /\ Str.forallb no_at domain = true.
Proof.
  intros (local & host & tld & -> & Hl & _ & Hh & _ & Ht & _)%email_hit_shape.
  exists local, (host +:+ String "." tld).
  assert (Hd : Str.forallb no_at (host +:+ String "." tld) = true).
  { rewrite forallb_append. simpl.
    rewrite (forallb_impl _ _ _ domain_char_no_at Hh).
    now rewrite (forallb_impl _ _ _ tld_char_no_at Ht). }
  repeat split; auto.
  apply email_split; auto. exact (forallb_impl _ _ _ local_char_no_at Hl).
Qed.

(** ** The replacement functions *)

Lemma replace_email_seen (file_identifier email r : string) (self : PIIDeidentifier) :
  email_mappings self !! email = Some r ->
  replace_email file_identifier email self = (Ret r, self).
Proof.
  intros H. unfold replace_email, bind, absent, getitem, ret. cbn.
  rewrite H. cbn. now rewrite H.
Qed.

Lemma replace_email_new (file_identifier email : string) (self : PIIDeidentifier) :
  email_mappings self !! email = None ->
  replace_email file_identifier email self =
  match nth_error (Str.split "@" email) 1 with
  | Some domain =>
      (Ret (email_for file_identifier domain),
       with_email email (email_for file_identifier domain) self)
  | None => (Raise IndexError, self)
  end.
Proof.
  intros H.
  destruct (nth_error (Str.split "@" email) 1) as [domain|] eqn:E;
    unfold replace_email, bind, absent, getitem, index; cbv beta;
    rewrite H, E; [|reflexivity].
  unfold with_email, email_for. cbn. now rewrite lookup_insert_eq.
Qed.

Lemma replace_phone_seen (phone r : string) (self : PIIDeidentifier) :
  phone_mappings self !! phone = Some r ->
  replace_phone phone self = (Ret r, self).
Proof.
  intros H. unfold replace_phone, bind, absent, getitem, ret. cbn.
  rewrite H. cbn. now rewrite H.
Qed.

Lemma replace_phone_new (phone : string) (self : PIIDeidentifier) :
  phone_mappings self !! phone = None ->
  replace_phone phone self =
  (Ret (phone_for phone (phone_counter self)),
   with_phone phone (phone_for phone (phone_counter self)) self).
Proof.
  intros H. unfold replace_phone, bind, absent, getitem, ret. cbn.
  rewrite H. unfold with_phone, phone_for. cbn. now rewrite lookup_insert_eq.
Qed.

Lemma replace_id_seen (id_text r : string) (self : PIIDeidentifier) :
  id_mappings self !! id_text = Some r ->
  replace_id id_text self = (Ret r, self).
Proof.
  intros H. unfold replace_id, bind, absent, getitem, ret. cbn.
  rewrite H. cbn. now rewrite H.
Qed.

Lemma replace_id_new (id_text : string) (self : PIIDeidentifier) :
  id_mappings self !! id_text = None ->
  replace_id id_text self =
  (Ret (id_for id_text (id_counter self)),
   with_id id_text (id_for id_text (id_counter self)) self).
Proof.
  intros H. unfold replace_id, bind, absent, getitem, ret. cbn.
  rewrite H. unfold with_id, id_for. cbn. now rewrite lookup_insert_eq.
Qed.

(** ** The mapping tables only grow *)

Lemma grows_refl (a : PIIDeidentifier) : grows a a.
Proof. repeat split; reflexivity. Qed.

Lemma grows_trans (a b c : PIIDeidentifier) : grows a b -> grows b c -> grows a c.
Proof.
  intros (H1 & H2 & H3) (K1 & K2 & K3).
  repeat split; etransitivity; eassumption.
Qed.

Lemma replace_email_grows (file_identifier email : string) (self : PIIDeidentifier) :
  grows self (snd (replace_email file_identifier email self)).
Proof.
  destruct (email_mappings self !! email) as [r|] eqn:H.
  - rewrite (replace_email_seen _ _ _ _ H). apply grows_refl.
  - rewrite (replace_email_new _ _ _ H).
    destruct (nth_error (Str.split "@" email) 1); [|apply grows_refl].
    repeat split; try reflexivity. cbn. now apply insert_subseteq.
Qed.

Lemma replace_phone_grows (phone : string) (self : PIIDeidentifier) :
  grows self (snd (replace_phone phone self)).
Proof.
  destruct (phone_mappings self !! phone) as [r|] eqn:H.
  - rewrite (replace_phone_seen _ _ _ H). apply grows_refl.
  - rewrite (replace_phone_new _ _ H).
    repeat split; try reflexivity. cbn. now apply insert_subseteq.
Qed.

Lemma replace_id_grows (id_text : string) (self : PIIDeidentifier) :
  grows self (snd (replace_id id_text self)).
Proof.
  destruct (id_mappings self !! id_text) as [r|] eqn:H.
  - rewrite (replace_id_seen _ _ _ H). apply grows_refl.
  - rewrite (replace_id_new _ _ H).
    repeat split; try reflexivity. cbn. now apply insert_subseteq.
Qed.

Lemma subst_grows (repl : string -> M string) (segs : list Re.segment) :
  (forall m self, grows self (snd (repl m self))) ->
  forall self, grows self (snd (Re.subst repl segs self)).
Proof.
  intros Hrepl. induction segs as [|[c|m] segs IH]; intros self; simpl.
  - apply grows_refl.
  - specialize (IH self). destruct (Re.subst repl segs self) as [[out|e] st']; exact IH.
  - specialize (Hrepl m self). destruct (repl m self) as [[r|e] st1]; [|exact Hrepl].
    specialize (IH st1). simpl in Hrepl.
    destruct (Re.subst repl segs st1) as [[out|e] st2]; simpl in *;
      eapply grows_trans; eassumption.
Qed.

Lemma sub_each_grows (repl : string -> M string) (patterns : list Re.regex) :
  (forall m self, grows self (snd (repl m self))) ->
  forall text self, grows self (snd (sub_each patterns repl text self)).
Proof.
  intros Hrepl. induction patterns as [|pattern patterns IH]; intros text self; simpl.
  - apply grows_refl.
  - unfold bind, Re.sub_fn.
    pose proof (subst_grows repl (Re.segments pattern text) Hrepl self) as H1.
    destruct (Re.subst repl (Re.segments pattern text) self) as [[out|e] st1]; [|exact H1].
    eapply grows_trans; [exact H1 | apply IH].
Qed.

Lemma deidentify_emails_grows (text file_identifier : string) (self : PIIDeidentifier) :
  grows self (snd (deidentify_emails text file_identifier self)).
Proof. apply subst_grows. intros; apply replace_email_grows. Qed.

Lemma deidentify_phones_grows (text : string) (self : PIIDeidentifier) :
  grows self (snd (deidentify_phones text self)).
Proof. apply sub_each_grows. intros; apply replace_phone_grows. Qed.

Lemma deidentify_ids_grows (text : string) (self : PIIDeidentifier) :
  grows self (snd (deidentify_ids text self)).
Proof. apply sub_each_grows. intros; apply replace_id_grows. Qed.

(** The name pass does not touch the instance. *)
Lemma deidentify_names_in_state (names : list (string * string))
    (text file_identifier : string) (self : PIIDeidentifier) :
  snd (deidentify_names_in names text file_identifier self) = self.
Proof.
  unfold deidentify_names_in, bind, lift.
  destruct (sub_names full_name_pattern _ _ _) as [t|e]; [|reflexivity].
  reflexivity.
Qed.

Lemma deidentify_text_grows (text file_identifier : string) (self : PIIDeidentifier) :
  grows self (snd (deidentify_text text file_identifier self)).
Proof.
  unfold deidentify_text, bind.
  pose proof (deidentify_emails_grows text (Str.lower file_identifier) self) as H1.
  destruct (deidentify_emails _ _ self) as [[t1|e] s1]; [|exact H1].
  pose proof (deidentify_phones_grows t1 s1) as H2.
  destruct (deidentify_phones t1 s1) as [[t2|e] s2]; [|eapply grows_trans; eassumption].
  pose proof (deidentify_names_in_state specific_names t2 (Str.upper file_identifier) s2) as H3.
  fold deidentify_names in H3.
  destruct (deidentify_names t2 _ s2) as [[t3|e] s3]; simpl in H3; subst s3;
    [|eapply grows_trans; eassumption].
  pose proof (deidentify_ids_grows t3 s2) as H4.
  destruct (deidentify_ids t3 s2) as [[t4|e] s4]; simpl in *;
    eapply grows_trans; try eassumption; eapply grows_trans; eassumption.
Qed.

Lemma run_event_grows (ev : event) (self : PIIDeidentifier) :
  grows self (snd (run_event ev self)).
Proof.
  destruct ev; simpl.
  - apply replace_email_grows.
  - apply replace_phone_grows.
  - apply replace_id_grows.
  - apply deidentify_emails_grows.
  - apply deidentify_phones_grows.
  - unfold deidentify_names. rewrite deidentify_names_in_state. apply grows_refl.
  - apply deidentify_ids_grows.
  - apply deidentify_text_grows.
Qed.

Lemma after_grows (evs : list event) :
  forall self, grows self (after evs self).
Proof.
  induction evs as [|ev evs IH]; intros self; simpl.
  - apply grows_refl.
  - eapply grows_trans; [apply run_event_grows | apply IH].
Qed.

(** A pass leaves the instance as the calls of its replacement function
    on the matches, in their order, leave it. *)
Lemma subst_after (repl : string -> M string) (ev : string -> event)
    (segs : list Re.segment) :
  (forall m, run_event (ev m) = repl m) ->
  forall self out self',
    Re.subst repl segs self = (Ret out, self') ->
    self' = after (List.map ev (hits segs)) self.
Proof.
  intros Hev. induction segs as [|[c|m] segs IH]; intros self out self' H; simpl in *.
  - now injection H as _ <-.
  - destruct (Re.subst repl segs self) as [[o|e] s] eqn:E; [|discriminate].
    injection H as _ <-. exact (IH _ _ _ E).
  - rewrite Hev. destruct (repl m self) as [[r|e] s1]; [|discriminate]. simpl.
    destruct (Re.subst repl segs s1) as [[o|e] s] eqn:E; [|discriminate].
    injection H as _ <-. exact (IH _ _ _ E).
Qed.

(** ** A pass renders each match through the mapping table *)

Lemma render_ext (segs : list Re.segment) (f g : string -> string) :
  (forall m, In (Re.Hit m) segs -> f m = g m) ->
  Re.render segs f = Re.render segs g.
Proof.
  induction segs as [|[c|m] segs IH]; intros H; simpl.
  - reflexivity.
  - rewrite IH; [reflexivity | intros; apply H; now right].
  - rewrite (H m) by now left. rewrite IH; [reflexivity | intros; apply H; now right].
Qed.

Section Pass.

(** A replacement function that keeps its results in one of the tables. *)
Variable table : PIIDeidentifier -> gmap string string.
Variable repl : string -> M string.
Variable ok : string -> Prop.
Hypothesis repl_returns :
  forall m self, ok m -> exists r, fst (repl m self) = Ret r.
Hypothesis repl_stores :
  forall m self r, fst (repl m self) = Ret r -> table (snd (repl m self)) !! m = Some r.
Hypothesis repl_grows :
  forall m self, table self ⊆ table (snd (repl m self)).

Lemma subst_table (segs : list Re.segment) :
  forall self,
    (forall m, In (Re.Hit m) segs -> ok m) ->
    exists out self',
      Re.subst repl segs self = (Ret out, self') /\
      table self ⊆ table self' /\
      (forall m, In (Re.Hit m) segs -> is_Some (table self' !! m)) /\
      out = Re.render segs (shown (table self')).
Proof.
  induction segs as [|[c|m] segs IH]; intros self Hok; simpl.
  - exists "", self. repeat split; [reflexivity | intros ? []].
  - destruct (IH self) as (out & self' & -> & Hsub & Hin & ->).
    { intros; apply Hok; now right. }
    exists (String c (Re.render segs (shown (table self')))), self'.
    repeat split; auto. intros m [H|H]; [discriminate | auto].
  - destruct (repl_returns m self) as [r Hr]; [apply Hok; now left|].
    pose proof (repl_stores m self r Hr) as Hst.
    pose proof (repl_grows m self) as Hg.
    destruct (repl m self) as [o st1]. simpl in Hr, Hst, Hg. subst o.
    destruct (IH st1) as (out & self' & -> & Hsub & Hin & ->).
    { intros; apply Hok; now right. }
    pose proof (lookup_weaken _ _ _ _ Hst Hsub) as Hm.
    exists (r +:+ Re.render segs (shown (table self'))), self'.
    repeat split.
    + etransitivity; eassumption.
    + intros m' [H|H]; [injection H as <-; eauto | auto].
    + simpl. f_equal. unfold shown. now rewrite Hm.
Qed.

End Pass.

Lemma replace_email_returns (file_identifier m : string) (self : PIIDeidentifier) :
  has_domain m -> exists r, fst (replace_email file_identifier m self) = Ret r.
Proof.
  intros (local & domain & Hs).
  destruct (email_mappings self !! m) as [r|] eqn:H.
  - rewrite (replace_email_seen _ _ _ _ H). eauto.
  - rewrite (replace_email_new _ _ _ H), Hs. simpl. eauto.
Qed.

Lemma replace_email_stores (file_identifier m r : string) (self : PIIDeidentifier) :
  fst (replace_email file_identifier m self) = Ret r ->
  email_mappings (snd (replace_email file_identifier m self)) !! m = Some r.
Proof.
  destruct (email_mappings self !! m) as [r0|] eqn:H.
  - rewrite (replace_email_seen _ _ _ _ H). simpl. congruence.
  - rewrite (replace_email_new _ _ _ H).
    destruct (nth_error (Str.split "@" m) 1); simpl; [|discriminate].
    intros [= <-]. apply lookup_insert_eq.
Qed.

Lemma replace_phone_stores (m r : string) (self : PIIDeidentifier) :
  fst (replace_phone m self) = Ret r ->
  phone_mappings (snd (replace_phone m self)) !! m = Some r.
Proof.
  destruct (phone_mappings self !! m) as [r0|] eqn:H.
  - rewrite (replace_phone_seen _ _ _ H). simpl. congruence.
  - rewrite (replace_phone_new _ _ H). simpl. intros [= <-]. apply lookup_insert_eq.
Qed.

Lemma replace_id_stores (m r : string) (self : PIIDeidentifier) :
  fst (replace_id m self) = Ret r ->
  id_mappings (snd (replace_id m self)) !! m = Some r.
Proof.
  destruct (id_mappings self !! m) as [r0|] eqn:H.
  - rewrite (replace_id_seen _ _ _ H). simpl. congruence.
  - rewrite (replace_id_new _ _ H). simpl. intros [= <-]. apply lookup_insert_eq.
Qed.

Lemma replace_phone_returns (m : string) (self : PIIDeidentifier) :
  exists r, fst (replace_phone m self) = Ret r.
Proof.
  destruct (phone_mappings self !! m) as [r|] eqn:H.
  - rewrite (replace_phone_seen _ _ _ H). eauto.
  - rewrite (replace_phone_new _ _ H). eauto.
Qed.

Lemma replace_id_returns (m : string) (self : PIIDeidentifier) :
  exists r, fst (replace_id m self) = Ret r.
Proof.
  destruct (id_mappings self !! m) as [r|] eqn:H.
  - rewrite (replace_id_seen _ _ _ H). eauto.
  - rewrite (replace_id_new _ _ H). eauto.
Qed.

(** The email pass returns, and its output is the text with each match
    rendered through the email table as the pass leaves it. *)
Lemma emails_pass (text file_identifier : string) (self : PIIDeidentifier) :
  exists out self',
    deidentify_emails text file_identifier self = (Ret out, self') /\
    email_mappings self ⊆ email_mappings self' /\
    (forall m, In (Re.Hit m) (Re.segments email_pattern text) ->
               is_Some (email_mappings self' !! m)) /\
    out = Re.render (Re.segments email_pattern text) (shown (email_mappings self')).
Proof.
  apply (subst_table email_mappings (replace_email file_identifier) has_domain).
  - intros; now apply replace_email_returns.
  - intros; now apply replace_email_stores.
  - intros; apply replace_email_grows.
  - intros m (local & domain & _ & Hs & _)%email_hit_split. now exists local, domain.
Qed.

Lemma phones_pass (pattern : Re.regex) (text : string) (self : PIIDeidentifier) :
  exists out self',
    Re.sub_fn pattern replace_phone text self = (Ret out, self') /\
    phone_mappings self ⊆ phone_mappings self' /\
    (forall m, In (Re.Hit m) (Re.segments pattern text) ->
               is_Some (phone_mappings self' !! m)) /\
    out = Re.render (Re.segments pattern text) (shown (phone_mappings self')).
Proof.
  apply (subst_table phone_mappings replace_phone (fun _ => True)); auto.
  - intros; apply replace_phone_returns.
  - intros; now apply replace_phone_stores.
  - intros; apply replace_phone_grows.
Qed.

Lemma ids_pass (pattern : Re.regex) (text : string) (self : PIIDeidentifier) :
  exists out self',
    Re.sub_fn pattern replace_id text self = (Ret out, self') /\
    id_mappings self ⊆ id_mappings self' /\
    (forall m, In (Re.Hit m) (Re.segments pattern text) ->
               is_Some (id_mappings self' !! m)) /\
    out = Re.render (Re.segments pattern text) (shown (id_mappings self')).
Proof.
  apply (subst_table id_mappings replace_id (fun _ => True)); auto.
  - intros; apply replace_id_returns.
  - intros; now apply replace_id_stores.
  - intros; apply replace_id_grows.
Qed.

(** ** When the engine returns *)

Lemma contains_char (c : ascii) (s : string) :
  Str.contains (String c "") s = negb (Str.forallb (differs c) s).
Proof.
  induction s as [|d s IH]; [reflexivity|].
  simpl. rewrite IH, negb_andb.
  change (differs c d) with (negb (Ascii.eqb d c)).
  destruct (ascii_dec c d) as [->|Hne].
  - rewrite Ascii.eqb_refl. now destruct s.
  - apply not_eq_sym in Hne. apply Ascii.eqb_neq in Hne. rewrite Hne. reflexivity.
Qed.

Lemma upper_no_backslash (c : ascii) : differs "\" c = true -> differs "\" (Chr.upper c) = true.
Proof. by_cases_on c. Qed.

Lemma upper_keeps_free (s : string) :
  Str.contains "\" s = false -> Str.contains "\" (Str.upper s) = false.
Proof.
  rewrite !contains_char, !negb_false_iff. unfold Str.upper.
  induction s as [|c s IH]; [reflexivity|]. simpl.
  intros [Hc Hs]%andb_true_iff.
  now rewrite (upper_no_backslash c Hc), (IH Hs).
Qed.

Lemma sub_names_returns (pattern : string -> Re.regex) (names : list string)
    (repl : string) :
  Str.contains "\" repl = false ->
  forall text, exists out, sub_names pattern names repl text = Ret out.
Proof.
  intros Hb. induction names as [|name names IH]; intros text; simpl; [eauto|].
  unfold Re.sub_template. rewrite Hb. simpl. apply IH.
Qed.

Lemma sub_each_returns (repl : string -> M string) (patterns : list Re.regex) :
  (forall pattern text self,
      exists out self', Re.sub_fn pattern repl text self = (Ret out, self')) ->
  forall text self, exists out self', sub_each patterns repl text self = (Ret out, self').
Proof.
  intros Hsub. induction patterns as [|pattern patterns IH]; intros text self; simpl.
  - unfold ret. eauto.
  - unfold bind. destruct (Hsub pattern text self) as (out & self' & ->). apply IH.
Qed.

Lemma deidentify_text_steps (text file_identifier t1 t2 t3 : string)
    (self s1 s2 s3 : PIIDeidentifier) :
  deidentify_emails text (Str.lower file_identifier) self = (Ret t1, s1) ->
  deidentify_phones t1 s1 = (Ret t2, s2) ->
  deidentify_names t2 (Str.upper file_identifier) s2 = (Ret t3, s3) ->
  deidentify_text text file_identifier self = deidentify_ids t3 s3.
Proof.
  intros E1 E2 E3. unfold deidentify_text, bind, ret. rewrite E1, E2, E3.
  destruct (deidentify_ids t3 s3) as [[t4|e] s4]; reflexivity.
Qed.

(** With an identifier free of backslashes, [deidentify_text] returns. *)
Lemma deidentify_text_returns (text file_identifier : string) (self : PIIDeidentifier) :
  Str.contains "\" file_identifier = false ->
  exists out self', deidentify_text text file_identifier self = (Ret out, self').
Proof.
  intros Hb.
  destruct (emails_pass text (Str.lower file_identifier) self) as (t1 & s1 & E1 & _).
  destruct (sub_each_returns replace_phone phone_patterns) with (text := t1) (self := s1)
    as (t2 & s2 & E2).
  { intros p t s. destruct (phones_pass p t s) as (o & s' & E & _). eauto. }
  destruct (sub_names_returns full_name_pattern (List.map fst specific_names)
              (Str.upper file_identifier) (upper_keeps_free _ Hb) t2) as [t3 E3].
  destruct (sub_names_returns first_name_pattern common_first_names
              (Str.upper file_identifier) (upper_keeps_free _ Hb) t3) as [t4 E4].
  rewrite (deidentify_text_steps text file_identifier t1 t2 t4 self s1 s2 s2 E1 E2).
  - apply sub_each_returns.
    intros p t s. destruct (ids_pass p t s) as (o & s' & E & _). eauto.
  - unfold deidentify_names, deidentify_names_in, bind, lift. now rewrite E3, E4.
Qed.

(** ** Text without a match *)

Lemma scan_free (r : Re.regex) (f : string -> string) (s : string) :
  forall prev,
    (forall m, ~ In (Re.Hit m) (Re.scan r prev s 0)) ->
    Re.render (Re.scan r prev s 0) f = s /\
    forall {S : Type} (repl : string -> S -> outcome string * S) (st : S),
      Re.subst repl (Re.scan r prev s 0) st = (Ret s, st).
Proof.
  induction s as [|c s IH]; intros prev Hfree; [split; reflexivity|].
  simpl in *.
  destruct (Re.match_len r prev (String c s)) as [[|n]|].
  - destruct (IH (Some c)) as [Hr Hs]; [intros m H; apply (Hfree m); now right|].
    split; simpl; [now rewrite Hr | intros; now rewrite Hs].
  - exfalso. eapply Hfree. left. reflexivity.
  - destruct (IH (Some c)) as [Hr Hs]; [intros m H; apply (Hfree m); now right|].
    split; simpl; [now rewrite Hr | intros; now rewrite Hs].
Qed.

Lemma sub_each_free (repl : string -> M string) (patterns : list Re.regex)
    (text : string) (self : PIIDeidentifier) :
  Forall (fun p => free_of p text) patterns ->
  sub_each patterns repl text self = (Ret text, self).
Proof.
  induction 1 as [|p patterns Hp _ IH]; simpl; [reflexivity|].
  unfold bind, Re.sub_fn, Re.segments.
  destruct (scan_free p (fun m => m) text None Hp) as [_ ->]. exact IH.
Qed.

Lemma sub_names_free (pattern : string -> Re.regex) (names : list string)
    (repl text : string) :
  Str.contains "\" repl = false ->
  Forall (fun name => free_of (pattern name) text) names ->
  sub_names pattern names repl text = Ret text.
Proof.
  intros Hb. induction 1 as [|name names Hp _ IH]; simpl; [reflexivity|].
  unfold Re.sub_template, Re.segments. rewrite Hb. simpl.
  destruct (scan_free (pattern name) (fun _ => repl) text None Hp) as [-> _]. exact IH.
Qed.

(** A text in which no pattern of the engine has a match comes back as
    it is, and the instance is not changed. *)
Lemma unmatched_text_unchanged (text file_identifier : string) (self : PIIDeidentifier) :
  Str.contains "\" file_identifier = false ->
  free_of email_pattern text ->
  Forall (fun p => free_of p text) phone_patterns ->
  Forall (fun name => free_of (full_name_pattern name) text) (List.map fst specific_names) ->
  Forall (fun name => free_of (first_name_pattern name) text) common_first_names ->
  Forall (fun p => free_of p text) id_patterns ->
  deidentify_text text file_identifier self = (Ret text, self).
Proof.
  intros Hb He Hp Hn Hf Hi.
  rewrite (deidentify_text_steps text file_identifier text text text self self self self).
  - apply (sub_each_free _ _ _ _ Hi).
  - unfold deidentify_emails, Re.sub_fn, Re.segments.
    now destruct (scan_free email_pattern (fun m => m) text None He) as [_ ->].
  - apply (sub_each_free _ _ _ _ Hp).
  - unfold deidentify_names, deidentify_names_in, bind, lift.
    rewrite (sub_names_free _ _ _ _ (upper_keeps_free _ Hb) Hn).
    now rewrite (sub_names_free _ _ _ _ (upper_keeps_free _ Hb) Hf).
Qed.

Lemma den_min_len (r : Re.regex) :
  forall prev w rest, Re.den r prev w rest -> (min_len r <= String.length w)%nat.
Proof.
  induction r as [|p|p lo hi| |r' IH|r1 IH1 r2 IH2]; intros prev w rest H; simpl in *.
  - lia.
  - destruct H as (c & -> & _). simpl. lia.
  - destruct H as (_ & H & _). exact H.
  - lia.
  - lia.
  - destruct H as (w1 & w2 & -> & H1 & H2). rewrite length_append.
    apply IH1 in H1. apply IH2 in H2. lia.
Qed.

Lemma match_len_pos (r : Re.regex) (prev : option ascii) (s : string) (n : nat) :
  Re.match_len r prev s = Some n -> (min_len r <= n)%nat.
Proof.
  intros (w & rest & _ & Hd & <-)%ReFacts.match_len_sound.
  now apply den_min_len in Hd.
Qed.

(** None of the engine's patterns matches the empty string. *)
Lemma patterns_not_empty :
  Forall (fun r => (1 <= min_len r)%nat)
    (email_pattern :: phone_patterns ++ id_patterns ++
     List.map full_name_pattern (List.map fst specific_names) ++
     List.map first_name_pattern common_first_names).
Proof. repeat constructor. Qed.

(** * The claims *)

(** ** C1: one original, one replacement *)

(** C1.  Take any instance, any matched string [v] and any sequence of
    later events of the instance (calls of the methods, and calls of the
    replacement functions on other matches of the same pass).  The
    replacement given to [v] after these events is the one given to [v]
    before them, in each of the three categories: the table is looked up
    before a replacement is made, and no entry is removed or changed.  For
    emails this holds whatever identifiers the two calls are given. *)
Theorem consistent_replacement (self : PIIDeidentifier) (evs : list event) (v : string) :
  (forall id1 id2 r,
      fst (replace_email id1 v self) = Ret r ->
      fst (replace_email id2 v (after evs (snd (replace_email id1 v self)))) = Ret r) /\
  (exists r,
      fst (replace_phone v self) = Ret r /\
      fst (replace_phone v (after evs (snd (replace_phone v self)))) = Ret r) /\
  (exists r,
      fst (replace_id v self) = Ret r /\
      fst (replace_id v (after evs (snd (replace_id v self)))) = Ret r).
Proof.
  split; [|split].
  - intros id1 id2 r Hr.
    pose proof (replace_email_stores _ _ _ _ Hr) as Hst.
    destruct (after_grows evs (snd (replace_email id1 v self))) as (Hg & _ & _).
    now rewrite (replace_email_seen id2 v r _ (lookup_weaken _ _ _ _ Hst Hg)).
  - destruct (replace_phone_returns v self) as [r Hr]. exists r. split; [exact Hr|].
    pose proof (replace_phone_stores _ _ _ Hr) as Hst.
    destruct (after_grows evs (snd (replace_phone v self))) as (_ & Hg & _).
    now rewrite (replace_phone_seen v r _ (lookup_weaken _ _ _ _ Hst Hg)).
  - destruct (replace_id_returns v self) as [r Hr]. exists r. split; [exact Hr|].
    pose proof (replace_id_stores _ _ _ Hr) as Hst.
    destruct (after_grows evs (snd (replace_id v self))) as (_ & _ & Hg).
    now rewrite (replace_id_seen v r _ (lookup_weaken _ _ _ _ Hst Hg)).
Qed.

Lemma consistent_replacement_witness :
  fst (replace_email "second" "john@example.com"
         (after [CallText "Write to john@example.com or 0412 345 678" "third"]
                (snd (replace_email "first" "john@example.com" init))))
  = Ret "first@example.com".
Proof.
  apply (proj1 (consistent_replacement init
                  [CallText "Write to john@example.com or 0412 345 678" "third"]
                  "john@example.com") "first" "second" "first@example.com").
  vm_compute. reflexivity.
Defined.

(** ** C2: the order of the passes *)

(** C2.  For an identifier of ASCII characters, [deidentify_text] runs
    the email pass with the identifier in lower case, the phone pass on
    its output, the name pass with the identifier in upper case on the
    output of that, the identifier pass on the output of that, and returns
    the last output; a pass that raises ends the call.  When the
    identifier has no backslash the four passes all run and return, each
    on the text and the instance left by the one before (the name pass
    leaves the instance as it is), and the call returns what the
    identifier pass returns. *)
Theorem deidentify_text_order (text file_identifier : string) (self : PIIDeidentifier) :
  ascii_text file_identifier = true ->
  deidentify_text text file_identifier self =
  match deidentify_emails text (Str.lower file_identifier) self with
  | (Raise e, s1) => (Raise e, s1)
  | (Ret t1, s1) =>
      match deidentify_phones t1 s1 with
      | (Raise e, s2) => (Raise e, s2)
      | (Ret t2, s2) =>
          match deidentify_names t2 (Str.upper file_identifier) s2 with
          | (Raise e, s3) => (Raise e, s3)
          | (Ret t3, s3) => deidentify_ids t3 s3
          end
      end
  end /\
  (Str.contains "\" file_identifier = false ->
   exists t1 s1 t2 s2 t3 out s4,
     deidentify_emails text (Str.lower file_identifier) self = (Ret t1, s1) /\
     deidentify_phones t1 s1 = (Ret t2, s2) /\
     deidentify_names t2 (Str.upper file_identifier) s2 = (Ret t3, s2) /\
     deidentify_ids t3 s2 = (Ret out, s4) /\
     deidentify_text text file_identifier self = (Ret out, s4)).
Proof.
  intros _. split.
  - unfold deidentify_text, bind, ret.
    destruct (deidentify_emails _ _ self) as [[t1|e] s1]; [|reflexivity].
    destruct (deidentify_phones t1 s1) as [[t2|e] s2]; [|reflexivity].
    destruct (deidentify_names t2 _ s2) as [[t3|e] s3]; [|reflexivity].
    destruct (deidentify_ids t3 s3) as [[t4|e] s4]; reflexivity.
  - intros Hb.
    destruct (emails_pass text (Str.lower file_identifier) self) as (t1 & s1 & E1 & _).
    destruct (sub_each_returns replace_phone phone_patterns) with (text := t1) (self := s1)
      as (t2 & s2 & E2).
    { intros p t s. destruct (phones_pass p t s) as (o & s' & E & _). eauto. }
    change (sub_each phone_patterns replace_phone t1 s1) with (deidentify_phones t1 s1) in E2.
    destruct (sub_names_returns full_name_pattern (List.map fst specific_names)
                (Str.upper file_identifier) (upper_keeps_free _ Hb) t2) as [t3 E3].
    destruct (sub_names_returns first_name_pattern common_first_names
                (Str.upper file_identifier) (upper_keeps_free _ Hb) t3) as [t4 E4].
    assert (E34 : deidentify_names t2 (Str.upper file_identifier) s2 = (Ret t4, s2)).
    { unfold deidentify_names, deidentify_names_in, bind, lift. now rewrite E3, E4. }
    destruct (sub_each_returns replace_id id_patterns) with (text := t4) (self := s2)
      as (out & s4 & E5).
    { intros p t s. destruct (ids_pass p t s) as (o & s' & E & _). eauto. }
    change (sub_each id_patterns replace_id t4 s2) with (deidentify_ids t4 s2) in E5.
    exists t1, s1, t2, s2, t4, out, s4. repeat split; auto.
    unfold deidentify_text, bind, ret. now rewrite E1, E2, E34, E5.
Qed.

Lemma deidentify_text_order_witness :
  exists t1 s1 t2 s2 t3 out s4,
    deidentify_emails "Zoe W, zoe@x.org, 0412 345 678, ID: 7" (Str.lower "Doc_1") init
    = (Ret t1, s1) /\
    deidentify_phones t1 s1 = (Ret t2, s2) /\
    deidentify_names t2 (Str.upper "Doc_1") s2 = (Ret t3, s2) /\
    deidentify_ids t3 s2 = (Ret out, s4) /\
    deidentify_text "Zoe W, zoe@x.org, 0412 345 678, ID: 7" "Doc_1" init = (Ret out, s4).
Proof.
  apply (deidentify_text_order "Zoe W, zoe@x.org, 0412 345 678, ID: 7" "Doc_1" init);
    reflexivity.
Defined.

(** The passes of the scenario, one after another. *)
Example order_scenario_run :
  let text := "Zoe W, zoe@x.org, 0412 345 678, ID: 7" in
  fst (deidentify_emails text "doc_1" init)
  = Ret "Zoe W, doc_1@example.com, 0412 345 678, ID: 7" /\
  fst (deidentify_text text "Doc_1" init)
  = Ret "DOC_1, doc_1@example.com, 0XXX XXX 001, ID: 000001".
Proof. vm_compute. split; reflexivity. Qed.

(** ** C3: the replacement of a new email *)

(** C3.  A match [email] of the email pattern has one [@]; the piece
    after it is the domain.  When [email] is not yet in the email table,
    the replacement is the identifier followed by [@gmail.com] when the
    domain contains [gmail.com], else by [@hotmail.com] when it contains
    [hotmail.com], else by [@example.com]; the call returns it and leaves
    it in the table under [email]. *)
Theorem email_routing (text email file_identifier : string) (self : PIIDeidentifier) :
  In (Re.Hit email) (Re.segments email_pattern text) ->
  email_mappings self !! email = None ->
  exists local domain self',
    email = local +:+ String "@" domain /\
    Str.forallb no_at local = true /\ Str.forallb no_at domain = true /\
    let replacement :=
      if Str.contains "gmail.com" domain then file_identifier +:+ "@gmail.com"
      else if Str.contains "hotmail.com" domain then file_identifier +:+ "@hotmail.com"
      else file_identifier +:+ "@example.com" in
    replace_email file_identifier email self = (Ret replacement, self') /\
    email_mappings self' = <[email := replacement]> (email_mappings self).
Proof.
  intros (local & domain & -> & Hs & Hl & Hd)%email_hit_split Hnew.
  exists local, domain. eexists. repeat split; auto.
  - exact (forallb_impl _ _ _ local_char_no_at Hl).
  - rewrite (replace_email_new _ _ _ Hnew), Hs. reflexivity.
  - reflexivity.
Qed.

Lemma email_routing_witness :
  exists local domain self',
    "alice@mail.gmail.com" = local +:+ String "@" domain /\
    Str.forallb no_at local = true /\ Str.forallb no_at domain = true /\
    let replacement :=
      if Str.contains "gmail.com" domain then "doc" +:+ "@gmail.com"
      else if Str.contains "hotmail.com" domain then "doc" +:+ "@hotmail.com"
      else "doc" +:+ "@example.com" in
    replace_email "doc" "alice@mail.gmail.com" init = (Ret replacement, self') /\
    email_mappings self' = <[ "alice@mail.gmail.com" := replacement]> (email_mappings init).
Proof.
  apply (email_routing "Ask alice@mail.gmail.com." "alice@mail.gmail.com" "doc" init).
  - vm_compute. right. right. right. right. left. reflexivity.
  - reflexivity.
Defined.

(** ** C4: the phone pass *)

Lemma of_int_unsigned (n : Z) :
  (0 <= n)%Z ->
  exists c s, Str.of_int n = String c s /\ Chr.is_digit c = true.
Proof.
  intros Hn. unfold Str.of_int.
  assert (H : exists d, Z.to_int n = Decimal.Pos d).
  { destruct n; simpl; eauto. lia. }
  destruct H as [d ->]. simpl.
  destruct d as [|d|d|d|d|d|d|d|d|d|d]; simpl; eauto.
Qed.

Lemma length_zeros (n : nat) : String.length (Str.zeros n) = n.
Proof. induction n as [|n IH]; simpl; [reflexivity | now rewrite IH]. Qed.

(** [zfill] of a number without sign: zeros in front, up to the width. *)
Lemma zfill_unsigned (width : nat) (n : Z) :
  (0 <= n)%Z ->
  Str.zfill width (Str.of_int n) =
    Str.zeros (width - String.length (Str.of_int n)) +:+ Str.of_int n /\
  (width <= String.length (Str.zfill width (Str.of_int n)))%nat.
Proof.
  intros (c & s & E & Hc)%of_int_unsigned.
  assert (Hz : Str.zfill width (Str.of_int n) =
               Str.zeros (width - String.length (Str.of_int n)) +:+ Str.of_int n).
  { rewrite E. unfold Str.zfill.
    replace (Ascii.eqb c "+" || Ascii.eqb c "-") with false; [reflexivity|].
    revert Hc. clear. by_cases_on c. }
  split; [exact Hz|].
  rewrite Hz, length_append, length_zeros. lia.
Qed.






(** The pass of the witness: two new values, one of them twice. *)
Example phone_pass_run :
  let r := deidentify_phones "Call +61 2 1234 5678, 0412345678 or 0412345678" init in
  fst r = Ret "Call +61 XXX XXX 001, 0XXX XXX 002 or 0XXX XXX 002" /\
  phone_counter (snd r) = 3%Z /\ size (phone_mappings (snd r)) = 2%nat.
Proof. vm_compute. repeat split; reflexivity. Qed.


(** A value that several patterns match is replaced once: the later
    patterns scan the text in which it is already replaced. *)
Example phone_replaced_once :
  In (Re.Hit "0412345678") (Re.segments phone_mobile "0412345678") /\
  In (Re.Hit "0412345678") (Re.segments phone_digits "0412345678") /\
  In (Re.Hit "0412345678") (Re.segments phone_landline "0412345678") /\
  fst (deidentify_phones "0412345678" init) = Ret "0XXX XXX 001" /\
  phone_counter (snd (deidentify_phones "0412345678" init)) = 2%Z.
Proof. vm_compute. repeat split; auto. Qed.

(** ** C5: the first identifier stays *)

Lemma replace_email_frame (file_identifier m other : string) (self : PIIDeidentifier) :
  m <> other ->
  email_mappings (snd (replace_email file_identifier m self)) !! other
  = email_mappings self !! other.
Proof.
  intros Hne. destruct (email_mappings self !! m) as [r|] eqn:H.
  - now rewrite (replace_email_seen _ _ _ _ H).
  - rewrite (replace_email_new _ _ _ H).
    destruct (nth_error (Str.split "@" m) 1); [|reflexivity].
    cbn. now apply lookup_insert_ne.
Qed.

(** In a pass, an email that is new when the pass starts gets the
    replacement made from the identifier of that pass. *)
Lemma subst_email_first (file_identifier email local domain : string)
    (segs : list Re.segment) :
  Str.split "@" email = [local; domain] ->
  forall self,
    (forall m, In (Re.Hit m) segs -> has_domain m) ->
    In (Re.Hit email) segs ->
    email_mappings self !! email = None ->
    email_mappings (snd (Re.subst (replace_email file_identifier) segs self)) !! email
    = Some (email_for file_identifier domain).
Proof.
  intros Hs. induction segs as [|[c|m] segs IH]; intros self Hok Hin Hnew; simpl.
  - destruct Hin.
  - destruct Hin as [Hin|Hin]; [discriminate|].
    assert (Hok' : forall m, In (Re.Hit m) segs -> has_domain m)
      by (intros; apply Hok; now right).
    specialize (IH self Hok' Hin Hnew).
    destruct (Re.subst _ segs self) as [[out|e] st']; exact IH.
  - assert (Hok' : forall m, In (Re.Hit m) segs -> has_domain m)
      by (intros; apply Hok; now right).
    destruct (decide (m = email)) as [->|Hne].
    + rewrite (replace_email_new _ _ _ Hnew), Hs. simpl.
      pose proof (subst_grows (replace_email file_identifier) segs
                    (fun m self => replace_email_grows file_identifier m self)
                    (with_email email (email_for file_identifier domain) self))
        as (Hg & _ & _).
      assert (Hst : email_mappings (with_email email (email_for file_identifier domain) self)
                    !! email = Some (email_for file_identifier domain))
        by apply lookup_insert_eq.
      pose proof (lookup_weaken _ _ _ _ Hst Hg) as Hm.
      destruct (Re.subst _ segs _) as [[out|e] st']; exact Hm.
    + destruct Hin as [Hin|Hin]; [congruence|].
      pose proof (replace_email_frame file_identifier m email self Hne) as Hf.
      destruct (replace_email_returns file_identifier m self) as [r Hr];
        [apply Hok; now left|].
      destruct (replace_email file_identifier m self) as [o st1]; simpl in Hf, Hr.
      subst o. rewrite Hnew in Hf. specialize (IH st1 Hok' Hin Hf).
      destruct (Re.subst _ segs st1) as [[out|e] st']; exact IH.
Qed.

(** C5.  Let [email] be matched in two texts of ASCII characters and be
    new to the instance.
    The email pass on the first text with identifier [first], then on the
    second with identifier [second], both return; each output is its text
    with every match rendered through the table, and in both tables
    [email] has the replacement made from [first] and the domain of
    [email]. *)
Theorem first_identifier_wins (text1 text2 first second email : string)
    (self : PIIDeidentifier) :
  ascii_text text1 = true ->
  ascii_text text2 = true ->
  In (Re.Hit email) (Re.segments email_pattern text1) ->
  In (Re.Hit email) (Re.segments email_pattern text2) ->
  email_mappings self !! email = None ->
  exists local domain out1 self1 out2 self2,
    email = local +:+ String "@" domain /\
    Str.forallb no_at local = true /\ Str.forallb no_at domain = true /\
    deidentify_emails text1 first self = (Ret out1, self1) /\
    deidentify_emails text2 second self1 = (Ret out2, self2) /\
    out1 = Re.render (Re.segments email_pattern text1) (shown (email_mappings self1)) /\
    out2 = Re.render (Re.segments email_pattern text2) (shown (email_mappings self2)) /\
    shown (email_mappings self1) email = email_for first domain /\
    shown (email_mappings self2) email = email_for first domain.
Proof.
  intros _ _ H1 H2 Hnew.
  destruct (email_hit_split _ _ H1) as (local & domain & He & Hs & Hl & Hd).
  destruct (emails_pass text1 first self) as (out1 & self1 & E1 & _ & _ & Ho1).
  destruct (emails_pass text2 second self1) as (out2 & self2 & E2 & Hg & _ & Ho2).
  assert (Hm1 : email_mappings self1 !! email = Some (email_for first domain)).
  { replace self1 with (snd (deidentify_emails text1 first self)) by now rewrite E1.
    apply (subst_email_first first email local domain _ Hs); auto.
    intros m (l & d & _ & Hsm & _)%email_hit_split. now exists l, d. }
  pose proof (lookup_weaken _ _ _ _ Hm1 Hg) as Hm2.
  exists local, domain, out1, self1, out2, self2.
  repeat split; auto.
  - exact (forallb_impl _ _ _ local_char_no_at Hl).
  - unfold shown. now rewrite Hm1.
  - unfold shown. now rewrite Hm2.
Qed.

Lemma first_identifier_wins_witness :
  exists local domain out1 self1 out2 self2,
    "sam@hotmail.com" = local +:+ String "@" domain /\
    Str.forallb no_at local = true /\ Str.forallb no_at domain = true /\
    deidentify_emails "From sam@hotmail.com" "first" init = (Ret out1, self1) /\
    deidentify_emails "Cc: sam@hotmail.com, x@y.org" "second" self1 = (Ret out2, self2) /\
    out1 = Re.render (Re.segments email_pattern "From sam@hotmail.com")
             (shown (email_mappings self1)) /\
    out2 = Re.render (Re.segments email_pattern "Cc: sam@hotmail.com, x@y.org")
             (shown (email_mappings self2)) /\
    shown (email_mappings self1) "sam@hotmail.com" = email_for "first" domain /\
    shown (email_mappings self2) "sam@hotmail.com" = email_for "first" domain.
Proof.
  apply (first_identifier_wins "From sam@hotmail.com" "Cc: sam@hotmail.com, x@y.org"
           "first" "second" "sam@hotmail.com" init).
  - reflexivity.
  - reflexivity.
  - vm_compute. do 5 right. left. reflexivity.
  - vm_compute. do 4 right. left. reflexivity.
  - reflexivity.
Defined.

(** The scenario of the claim, evaluated. *)
Example cache_scenario_run :
  fst (deidentify_emails "From sam@hotmail.com" "first" init)
  = Ret "From first@hotmail.com" /\
  fst (deidentify_emails "Cc: sam@hotmail.com, x@y.org" "second"
         (snd (deidentify_emails "From sam@hotmail.com" "first" init)))
  = Ret "Cc: first@hotmail.com, second@example.com".
Proof. vm_compute. split; reflexivity. Qed.

(** ** C6: the full names *)

Lemma run_lits_i {R : Type} (name : string) :
  forall prev s n (k : Re.cont R),
    Re.run (Re.lits_i name) prev s n k =
    if ci_prefix name s
    then k (Str.last_of prev (Str.take (String.length name) s))
           (Str.drop (String.length name) s) (n + String.length name)%nat
    else None.
Proof.
  induction name as [|a name IH]; intros prev s n k.
  - simpl. rewrite Nat.add_0_r. now destruct s.
  - destruct s as [|b s]; [reflexivity|].
    change (Re.lits_i (String a name)) with (Re.Cat (Re.lit_i a) (Re.lits_i name)).
    simpl. destruct (Ascii.eqb (Chr.lower b) (Chr.lower a)); [|reflexivity].
    rewrite IH. simpl. now rewrite <- plus_n_Sm.
Qed.

Lemma match_len_full_name (name : string) (prev : option ascii) (s : string) :
  Re.match_len (full_name_pattern name) prev s =
  if ci_prefix name s then Some (String.length name) else None.
Proof. unfold Re.match_len, full_name_pattern. now rewrite run_lits_i. Qed.

Lemma scan_full_name (name repl : string) :
  name <> "" ->
  forall s prev skip,
    Re.render (Re.scan (full_name_pattern name) prev s skip) (fun _ => repl)
    = spec_replace_occurrences name repl s skip.
Proof.
  intros Hne. induction s as [|c s IH]; intros prev skip; [reflexivity|].
  simpl. destruct skip as [|k]; [|apply IH].
  change (Re.match_len (full_name_pattern name) prev (String c s))
    with (Re.match_len (full_name_pattern name) prev (String c s)).
  rewrite match_len_full_name.
  destruct (ci_prefix name (String c s)).
  - destruct name as [|a name]; [congruence|]. simpl.
    rewrite IH. now rewrite Nat.sub_0_r.
  - simpl. now rewrite IH.
Qed.

Lemma full_name_step (name repl text : string) :
  name <> "" -> Str.contains "\" repl = false ->
  Re.sub_template (full_name_pattern name) repl text
  = Ret (spec_replace_occurrences name repl text 0).
Proof.
  intros Hne Hb. unfold Re.sub_template. rewrite Hb. simpl.
  unfold Re.segments. now rewrite scan_full_name.
Qed.

(** C6, as the code has it.  On texts of ASCII characters, for an
    identifier of ASCII characters without a backslash, the step of the
    full-name loop for a listed name replaces every occurrence of the
    name, compared without case, by the identifier; the four steps run in
    the order of the table, each on the output of the one before, so that a
    later step sees the identifiers the earlier ones have put in.  The
    role labels are not read: a table with the same names gives the same
    result. *)
Theorem full_names_become_identifier (names : list (string * string))
    (text file_identifier : string) (self : PIIDeidentifier) :
  ascii_text text = true ->
  ascii_text file_identifier = true ->
  Str.contains "\" file_identifier = false ->
  (forall name t,
      In name (List.map fst specific_names) ->
      ascii_text t = true ->
      Re.sub_template (full_name_pattern name) file_identifier t
      = Ret (spec_replace_occurrences name file_identifier t 0)) /\
  sub_names full_name_pattern (List.map fst specific_names) file_identifier text
  = Ret (fold_left (fun t name => spec_replace_occurrences name file_identifier t 0)
           ["Zoe W"; "James B"; "Jason W"; "John Smith"] text) /\
  (List.map fst names = List.map fst specific_names ->
   deidentify_names_in names text file_identifier self
   = deidentify_names text file_identifier self).
Proof.
  intros _ _ Hb. split; [|split].
  - intros name t Hin _. apply full_name_step; [|exact Hb].
    intros ->. simpl in Hin. intuition discriminate.
  - simpl. rewrite !full_name_step by (auto; discriminate). reflexivity.
  - intros E. unfold deidentify_names, deidentify_names_in. now rewrite E.
Qed.

Lemma full_names_become_identifier_witness :
  Re.sub_template (full_name_pattern "John Smith") "P07" "Ask JOHN SMITH or john smith."
  = Ret "Ask P07 or P07." /\
  sub_names full_name_pattern (List.map fst specific_names) "P07" "Zoe w met james b"
  = Ret "P07 met P07" /\
  deidentify_names_in [("Zoe W", "x"); ("James B", "y"); ("Jason W", "z"); ("John Smith", "")]
    "Zoe w met james b" "P07" init
  = deidentify_names "Zoe w met james b" "P07" init.
Proof.
  pose proof (full_names_become_identifier
                [("Zoe W", "x"); ("James B", "y"); ("Jason W", "z"); ("John Smith", "")]
                "Zoe w met james b" "P07" init eq_refl eq_refl eq_refl)
    as (Hstep & Hall & Hsame).
  split; [|split].
  - rewrite Hstep; [reflexivity | simpl; auto | reflexivity].
  - rewrite Hall. reflexivity.
  - apply Hsame. reflexivity.
Defined.

(** C6 as stated fails: the name pass does not always leave the
    identifier where a full name stood.  With the identifier
    [JAMES B NOTES], the step for [James B] finds its name in the
    identifier that the step for [Zoe W] has put in. *)
Lemma full_name_not_identifier :
  fst (deidentify_names "Zoe W said" "JAMES B NOTES" init)
  = Ret "JAMES B NOTES NOTES said" /\
  fst (deidentify_text "Zoe W said" "James B notes" init)
  = Ret "JAMES B NOTES NOTES said" /\
  ~ (forall file_identifier,
        fst (deidentify_names "Zoe W" file_identifier init) = Ret file_identifier).
Proof.
  split; [vm_compute; reflexivity|]. split; [vm_compute; reflexivity|].
  intros H. specialize (H "JAMES B NOTES"). vm_compute in H. discriminate.
Qed.

(** ** C7: the scenario with identifier doc1 *)

(** C7.  On a new instance, the text of the scenario with identifier
    [doc1] gives an output that contains [doc1@example.com], a match of
    [\+61 XXX XXX \d{3}] and a match of [ID: \d{6}], and none of the three
    original values. *)
Theorem scenario_doc1 :
  let text := "Email: john@example.com, Phone: +61 2 1234 5678, ID: 987654" in
  let out := "Email: doc1@example.com, Phone: +61 XXX XXX 001, ID: 000001" in
  fst (deidentify_text text "doc1" init) = Ret out /\
  Str.contains "doc1@example.com" out = true /\
  search (Re.Cat (Re.lits "+61 XXX XXX ") (Re.exactly 3 Chr.is_digit)) out = true /\
  search (Re.Cat (Re.lits "ID: ") (Re.exactly 6 Chr.is_digit)) out = true /\
  Str.contains "john@example.com" out = false /\
  Str.contains "+61 2 1234 5678" out = false /\
  Str.contains "987654" out = false.
Proof. vm_compute. repeat split; reflexivity. Qed.

(** ** C8: what becomes of a matched substring *)

(** C8 as stated fails.  A match can be its own replacement, and a string
    that is matched at one place can stand unmatched at another. *)
Lemma original_survives :
  (In (Re.Hit "a@example.com") (Re.segments email_pattern "a@example.com") /\
   fst (deidentify_text "a@example.com" "a" init) = Ret "a@example.com") /\
  (In (Re.Hit "a@b.cc") (Re.segments email_pattern "a@b.cc a@b.cc_") /\
   fst (deidentify_text "a@b.cc a@b.cc_" "doc" init) = Ret "doc@example.com a@b.cc_") /\
  ~ (forall text file_identifier m out,
        In (Re.Hit m) (Re.segments email_pattern text) ->
        fst (deidentify_text text file_identifier init) = Ret out ->
        Str.contains m out = false).
Proof.
  split; [vm_compute; auto|]. split; [vm_compute; auto|].
  intros H.
  specialize (H "a@example.com" "a" "a@example.com" "a@example.com").
  assert (E : Str.contains "a@example.com" "a@example.com" = false).
  { apply H; vm_compute; auto. }
  vm_compute in E. discriminate.
Qed.

(** C8, as the code has it.  On a text of ASCII characters each pass
    with a table returns, and its output is its input with every match
    replaced, where it stood, by the entry the table has for it when the
    pass ends; the characters outside the matches are kept.  This holds
    for the email pass and for the step of each pattern of the phone and
    of the identifier pass.  The step of a name pattern, for an identifier
    without a backslash, puts the identifier in place of every match.
    (The matched string can still be read in the output: as its own
    replacement, or where it stands unmatched.) *)
Theorem matches_rendered_through_tables (text file_identifier : string)
    (self : PIIDeidentifier) :
  ascii_text text = true ->
  (exists out self',
      deidentify_emails text file_identifier self = (Ret out, self') /\
      (forall m, In (Re.Hit m) (Re.segments email_pattern text) ->
                 is_Some (email_mappings self' !! m)) /\
      out = Re.render (Re.segments email_pattern text) (shown (email_mappings self'))) /\
  (forall pattern,
      In pattern phone_patterns ->
      exists out self',
        Re.sub_fn pattern replace_phone text self = (Ret out, self') /\
        (forall m, In (Re.Hit m) (Re.segments pattern text) ->
                   is_Some (phone_mappings self' !! m)) /\
        out = Re.render (Re.segments pattern text) (shown (phone_mappings self'))) /\
  (forall pattern,
      In pattern id_patterns ->
      exists out self',
        Re.sub_fn pattern replace_id text self = (Ret out, self') /\
        (forall m, In (Re.Hit m) (Re.segments pattern text) ->
                   is_Some (id_mappings self' !! m)) /\
        out = Re.render (Re.segments pattern text) (shown (id_mappings self'))) /\
  (forall pattern,
      In pattern (List.map full_name_pattern (List.map fst specific_names)
                  ++ List.map first_name_pattern common_first_names) ->
      Str.contains "\" file_identifier = false ->
      Re.sub_template pattern file_identifier text
      = Ret (Re.render (Re.segments pattern text) (fun _ => file_identifier))).
Proof.
  intros _. repeat split.
  - destruct (emails_pass text file_identifier self) as (out & self' & E & _ & Hin & Ho).
    now exists out, self'.
  - intros pattern _.
    destruct (phones_pass pattern text self) as (out & self' & E & _ & Hin & Ho).
    now exists out, self'.
  - intros pattern _.
    destruct (ids_pass pattern text self) as (out & self' & E & _ & Hin & Ho).
    now exists out, self'.
  - intros pattern _ Hb. unfold Re.sub_template. now rewrite Hb.
Qed.

Lemma matches_rendered_through_tables_witness :
  (exists out self',
      deidentify_emails "Mail amy@gmail.com, not amy@gmail" "doc" init = (Ret out, self') /\
      (forall m, In (Re.Hit m) (Re.segments email_pattern "Mail amy@gmail.com, not amy@gmail") ->
                 is_Some (email_mappings self' !! m)) /\
      out = Re.render (Re.segments email_pattern "Mail amy@gmail.com, not amy@gmail")
              (shown (email_mappings self'))) /\
  (exists out self',
      Re.sub_fn phone_mobile replace_phone "Mail amy@gmail.com, not amy@gmail" init
      = (Ret out, self') /\
      (forall m, In (Re.Hit m) (Re.segments phone_mobile "Mail amy@gmail.com, not amy@gmail") ->
                 is_Some (phone_mappings self' !! m)) /\
      out = Re.render (Re.segments phone_mobile "Mail amy@gmail.com, not amy@gmail")
              (shown (phone_mappings self'))).
Proof.
  destruct (matches_rendered_through_tables "Mail amy@gmail.com, not amy@gmail" "doc" init
              eq_refl) as (He & Hp & _).
  split; [exact He|]. apply Hp. simpl. auto.
Defined.

(** The passes of the claim on a text with an email, a phone value and a
    listed first name. *)
Example rendered_run :
  let text := "Jane, amy@gmail.com, 0412 345 678; amy@gmail.com" in
  fst (deidentify_emails text "doc" init)
  = Ret "Jane, doc@gmail.com, 0412 345 678; doc@gmail.com" /\
  Re.segments email_pattern "ab a@b.cc"
  = [Re.Keep "a"; Re.Keep "b"; Re.Keep " "; Re.Hit "a@b.cc"] /\
  fst (Re.sub_fn phone_mobile replace_phone text init)
  = Ret "Jane, amy@gmail.com, 0XXX XXX 001; amy@gmail.com" /\
  Re.sub_template (first_name_pattern "Jane") "DOC" text
  = Ret "DOC, amy@gmail.com, 0412 345 678; amy@gmail.com".
Proof. vm_compute. repeat split; reflexivity. Qed.

(** ** C9: the calls that raise *)

(** C9 fails on the code.  The name pass hands the identifier to
    [re.sub] as a replacement template; a backslash in it is read as an
    escape, and [\1] refers to a group the patterns do not have.  The email
    pass, which returns the identifier from a function, takes the same
    identifier as it is. *)
Theorem identifier_template_raises :
  fst (deidentify_text "hello" "doc\1" init) = Raise ReError /\
  fst (deidentify_names "hello" "DOC\1" init) = Raise ReError /\
  fst (deidentify_text "hello" "doc\" init) = Raise ReError /\
  fst (deidentify_emails "mail a@b.org" "doc\1" init) = Ret "mail doc\1@example.com".
Proof. vm_compute. repeat split; reflexivity. Qed.

(** ** C10: the identifier pass applied twice *)

(** C10.  On a new instance the identifier pass turns [ID: 123456] into
    [ID: 000001], and on this output it gives [ID: 000002]: the
    placeholder matches the pattern and is not a key of the table, whose
    only key is the original. *)
Theorem ids_not_idempotent :
  let first := deidentify_ids "ID: 123456" init in
  let second := deidentify_ids "ID: 000001" (snd first) in
  fst first = Ret "ID: 000001" /\
  fst second = Ret "ID: 000002" /\
  In (Re.Hit "ID: 000001") (Re.segments id_label "ID: 000001") /\
  id_mappings (snd first) !! "ID: 123456" = Some "ID: 000001" /\
  id_mappings (snd first) !! "ID: 000001" = None /\
  id_counter (snd first) = 2%Z.
Proof. vm_compute. repeat split; auto. Qed.

(** * Further properties of the code *)

(** ** What every method keeps *)

(** A property of the instance that the three replacement functions keep
    is kept by every pass, every method and every sequence of events. *)
Section Invariant.

Variable P : PIIDeidentifier -> Prop.
Hypothesis email_keeps :
  forall file_identifier m self, P self -> P (snd (replace_email file_identifier m self)).
Hypothesis phone_keeps : forall m self, P self -> P (snd (replace_phone m self)).
Hypothesis id_keeps : forall m self, P self -> P (snd (replace_id m self)).

Lemma subst_keeps (repl : string -> M string) (segs : list Re.segment) :
  (forall m self, P self -> P (snd (repl m self))) ->
  forall self, P self -> P (snd (Re.subst repl segs self)).
Proof.
  intros Hrepl. induction segs as [|[c|m] segs IH]; intros self HP; simpl.
  - exact HP.
  - specialize (IH self HP). destruct (Re.subst repl segs self) as [[out|e] st']; exact IH.
  - specialize (Hrepl m self HP). destruct (repl m self) as [[r|e] st1]; [|exact Hrepl].
    specialize (IH st1 Hrepl).
    destruct (Re.subst repl segs st1) as [[out|e] st2]; exact IH.
Qed.

Lemma sub_each_keeps (repl : string -> M string) (patterns : list Re.regex) :
  (forall m self, P self -> P (snd (repl m self))) ->
  forall text self, P self -> P (snd (sub_each patterns repl text self)).
Proof.
  intros Hrepl. induction patterns as [|pattern patterns IH]; intros text self HP; simpl.
  - exact HP.
  - unfold bind, Re.sub_fn.
    pose proof (subst_keeps repl (Re.segments pattern text) Hrepl self HP) as H1.
    destruct (Re.subst repl (Re.segments pattern text) self) as [[out|e] st1]; [|exact H1].
    now apply IH.
Qed.

Lemma deidentify_text_keeps (text file_identifier : string) (self : PIIDeidentifier) :
  P self -> P (snd (deidentify_text text file_identifier self)).
Proof.
  intros HP. unfold deidentify_text, bind.
  pose proof (subst_keeps _ (Re.segments email_pattern text)
                (email_keeps (Str.lower file_identifier)) self HP) as H1.
  fold (Re.sub_fn email_pattern (replace_email (Str.lower file_identifier)) text self) in H1.
  fold (deidentify_emails text (Str.lower file_identifier) self) in H1.
  destruct (deidentify_emails _ _ self) as [[t1|e] s1]; [|exact H1].
  pose proof (sub_each_keeps replace_phone phone_patterns phone_keeps t1 s1 H1) as H2.
  fold (deidentify_phones t1 s1) in H2.
  destruct (deidentify_phones t1 s1) as [[t2|e] s2]; [|exact H2].
  pose proof (deidentify_names_in_state specific_names t2 (Str.upper file_identifier) s2) as H3.
  fold deidentify_names in H3.
  destruct (deidentify_names t2 _ s2) as [[t3|e] s3]; simpl in H3; subst s3; [|exact H2].
  pose proof (sub_each_keeps replace_id id_patterns id_keeps t3 s2 H2) as H4.
  fold (deidentify_ids t3 s2) in H4.
  destruct (deidentify_ids t3 s2) as [[t4|e] s4]; exact H4.
Qed.

Lemma run_event_keeps (ev : event) (self : PIIDeidentifier) :
  P self -> P (snd (run_event ev self)).
Proof.
  intros HP. destruct ev; simpl.
  - now apply email_keeps.
  - now apply phone_keeps.
  - now apply id_keeps.
  - apply subst_keeps; auto.
  - apply sub_each_keeps; auto.
  - unfold deidentify_names. now rewrite deidentify_names_in_state.
  - apply sub_each_keeps; auto.
  - now apply deidentify_text_keeps.
Qed.

Lemma after_keeps (evs : list event) :
  forall self, P self -> P (after evs self).
Proof.
  induction evs as [|ev evs IH]; intros self HP; simpl; [exact HP|].
  apply IH. now apply run_event_keeps.
Qed.

End Invariant.

(** ** The counters and the tables *)

Lemma replace_email_counted (file_identifier m : string) (self : PIIDeidentifier) :
  counted self -> counted (snd (replace_email file_identifier m self)).
Proof.
  intros H. destruct (email_mappings self !! m) as [r|] eqn:E.
  - now rewrite (replace_email_seen _ _ _ _ E).
  - rewrite (replace_email_new _ _ _ E).
    destruct (nth_error (Str.split "@" m) 1); exact H.
Qed.

Lemma replace_phone_counted (m : string) (self : PIIDeidentifier) :
  counted self -> counted (snd (replace_phone m self)).
Proof.
  intros (Hp & Hi & He & Hn & Hm). destruct (phone_mappings self !! m) as [r|] eqn:E.
  - now rewrite (replace_phone_seen _ _ _ E).
  - rewrite (replace_phone_new _ _ E). repeat split; auto. cbn.
    rewrite (map_size_insert_None _ _ _ E), Hp. lia.
Qed.

Lemma replace_id_counted (m : string) (self : PIIDeidentifier) :
  counted self -> counted (snd (replace_id m self)).
Proof.
  intros (Hp & Hi & He & Hn & Hm). destruct (id_mappings self !! m) as [r|] eqn:E.
  - now rewrite (replace_id_seen _ _ _ E).
  - rewrite (replace_id_new _ _ E). repeat split; auto. cbn.
    rewrite (map_size_insert_None _ _ _ E), Hi. lia.
Qed.

(** X1.  In an instance that has gone through any calls since it was
    made, the phone counter is one more than the number of entries of the
    phone table and the identifier counter one more than the number of
    entries of the identifier table; the email counter, the name counter
    and the name table are never written. *)
Theorem counters_count_entries (evs : list event) :
  let self := after evs init in
  phone_counter self = (1 + Z.of_nat (size (phone_mappings self)))%Z /\
  id_counter self = (1 + Z.of_nat (size (id_mappings self)))%Z /\
  email_counter self = 1%Z /\ name_counter self = 1%Z /\
  name_mappings self = ∅.
Proof.
  apply (after_keeps counted).
  - intros; now apply replace_email_counted.
  - intros; now apply replace_phone_counted.
  - intros; now apply replace_id_counted.
  - repeat split.
Qed.

(** ** The number in a placeholder *)

Lemma uint_digits (d : Decimal.uint) :
  Str.forallb Chr.is_digit (NilEmpty.string_of_uint d) = true.
Proof. induction d; simpl; auto. Qed.

Lemma of_int_digits (c : Z) :
  (0 <= c)%Z -> Str.forallb Chr.is_digit (Str.of_int c) = true.
Proof.
  intros Hc. unfold Str.of_int. destruct c as [|p|p]; [reflexivity| |lia].
  simpl. destruct (Pos.to_uint p) eqn:E; try apply uint_digits. reflexivity.
Qed.

Lemma zeros_digits (n : nat) : Str.forallb Chr.is_digit (Str.zeros n) = true.
Proof. induction n; simpl; auto. Qed.

Lemma zfill_digits (width : nat) (c : Z) :
  (0 <= c)%Z -> Str.forallb Chr.is_digit (Str.zfill width (Str.of_int c)) = true.
Proof.
  intros Hc. destruct (zfill_unsigned width c Hc) as [-> _].
  now rewrite forallb_append, zeros_digits, of_int_digits.
Qed.

Lemma trailing_all (s : string) :
  Str.forallb Chr.is_digit s = true -> trailing_digits s = s.
Proof.
  induction s as [|c s IH]; [reflexivity|]. simpl.
  intros [Hc Hs]%andb_true_iff. rewrite (IH Hs), Hc, Nat.eqb_refl. reflexivity.
Qed.

Lemma length_trailing (s : string) :
  (String.length (trailing_digits s) <= String.length s)%nat.
Proof.
  induction s as [|c s IH]; simpl; [lia|].
  destruct (_ && _); simpl; lia.
Qed.

Lemma trailing_after (p : string) (x : ascii) (z : string) :
  Chr.is_digit x = false -> Str.forallb Chr.is_digit z = true ->
  trailing_digits (p +:+ String x z) = z.
Proof.
  intros Hx Hz. induction p as [|c p IH]; simpl.
  - rewrite (trailing_all z Hz), Hx, andb_false_r. reflexivity.
  - rewrite IH. rewrite length_append. simpl.
    replace (String.length z =? String.length p + S (String.length z))%nat with false;
      [reflexivity|].
    symmetry. apply Nat.eqb_neq. lia.
Qed.

Lemma read_of_int (c : Z) : (0 <= c)%Z -> read_number (Str.of_int c) = Some c.
Proof.
  intros Hc. unfold read_number, Str.of_int.
  destruct c as [|p|p]; [reflexivity| |lia]. simpl.
  assert (Hs : NilZero.string_of_uint (Pos.to_uint p)
               = NilEmpty.string_of_uint (Pos.to_uint p)).
  { pose proof (Unsigned.to_uint_nonnil p) as Hnil.
    now destruct (Pos.to_uint p). }
  rewrite Hs, NilEmpty.usu. unfold Z.of_uint.
  now rewrite Unsigned.of_to.
Qed.

Lemma read_zeros (n : nat) (s : string) :
  read_number (Str.zeros n +:+ s) = read_number s.
Proof.
  induction n as [|n IH]; [reflexivity|].
  rewrite <- IH. unfold read_number. simpl.
  now destruct (NilEmpty.uint_of_string (Str.zeros n +:+ s)).
Qed.

(** The counter reads back from its zero-filled form. *)
Lemma read_zfill (width : nat) (c : Z) :
  (0 <= c)%Z -> read_number (Str.zfill width (Str.of_int c)) = Some c.
Proof.
  intros Hc. destruct (zfill_unsigned width c Hc) as [-> _].
  now rewrite read_zeros, read_of_int.
Qed.

Lemma phone_for_number (k : string) (c : Z) :
  (0 <= c)%Z -> placeholder_number (phone_for k c) = Some c.
Proof.
  intros Hc. unfold placeholder_number, phone_for.
  pose proof (zfill_digits 3 c Hc) as Hd.
  destruct (Str.startswith "0" k); [|destruct (Str.contains "+61" k)].
  - change ("0XXX XXX " +:+ Str.zfill 3 (Str.of_int c))
      with ("0XXX XXX" +:+ String " " (Str.zfill 3 (Str.of_int c))).
    rewrite trailing_after by auto. now apply read_zfill.
  - change ("+61 XXX XXX " +:+ Str.zfill 3 (Str.of_int c))
      with ("+61 XXX XXX" +:+ String " " (Str.zfill 3 (Str.of_int c))).
    rewrite trailing_after by auto. now apply read_zfill.
  - change ("XXX XXX " +:+ Str.zfill 3 (Str.of_int c))
      with ("XXX XXX" +:+ String " " (Str.zfill 3 (Str.of_int c))).
    rewrite trailing_after by auto. now apply read_zfill.
Qed.

Lemma id_for_number (k : string) (c : Z) :
  (0 <= c)%Z -> placeholder_number (id_for k c) = Some c.
Proof.
  intros Hc. unfold placeholder_number, id_for.
  destruct (Str.contains "ID:" k); [|destruct (Str.contains "Mobile:" k)].
  - change ("ID: " +:+ Str.zfill 6 (Str.of_int c))
      with ("ID:" +:+ String " " (Str.zfill 6 (Str.of_int c))).
    rewrite trailing_after by (auto using zfill_digits). now apply read_zfill.
  - change ("Mobile: XXXX" +:+ Str.zfill 3 (Str.of_int c))
      with ("Mobile: XXX" +:+ String "X" (Str.zfill 3 (Str.of_int c))).
    rewrite trailing_after by (auto using zfill_digits). now apply read_zfill.
  - change ("ID_" +:+ Str.of_int c) with ("ID" +:+ String "_" (Str.of_int c)).
    rewrite trailing_after by (auto using of_int_digits). now apply read_of_int.
Qed.

(** A new entry made at the counter keeps the table numbered. *)
Lemma numbered_insert (fmt : string -> Z -> string) (table : gmap string string)
    (counter : Z) (k : string) :
  (forall k c, (0 <= c)%Z -> placeholder_number (fmt k c) = Some c) ->
  numbered fmt table counter -> table !! k = None ->
  numbered fmt (<[k := fmt k counter]> table) (counter + 1).
Proof.
  intros Hnum (Hc & Hval & Hinj) Hnew.
  assert (Hfresh : forall k' v, table !! k' = Some v -> v <> fmt k counter).
  { intros k' v Hk' ->. destruct (Hval _ _ Hk') as (c & Hr & E).
    assert (Some counter = Some c) as [= ->].
    { rewrite <- (Hnum k counter), <- (Hnum k' c) by lia. now rewrite E. }
    lia. }
  split; [lia|]. split.
  - intros k' v. rewrite lookup_insert. destruct (decide (k = k')) as [->|Hne].
    + intros [= <-]. exists counter. split; [lia | reflexivity].
    + intros Hk'. destruct (Hval _ _ Hk') as (c & Hr & E). exists c. split; [lia | exact E].
  - intros k1 k2 v. rewrite !lookup_insert.
    destruct (decide (k = k1)) as [<-|H1]; destruct (decide (k = k2)) as [<-|H2]; auto.
    + intros [= <-] Hk2. now destruct (Hfresh _ _ Hk2).
    + intros Hk1 [= <-]. now destruct (Hfresh _ _ Hk1).
    + apply Hinj.
Qed.

Lemma replace_phone_numbered (m : string) (self : PIIDeidentifier) :
  phones_numbered self -> phones_numbered (snd (replace_phone m self)).
Proof.
  intros H. destruct (phone_mappings self !! m) as [r|] eqn:E.
  - now rewrite (replace_phone_seen _ _ _ E).
  - rewrite (replace_phone_new _ _ E).
    exact (numbered_insert phone_for _ _ m phone_for_number H E).
Qed.

Lemma replace_id_numbered (m : string) (self : PIIDeidentifier) :
  ids_numbered self -> ids_numbered (snd (replace_id m self)).
Proof.
  intros H. destruct (id_mappings self !! m) as [r|] eqn:E.
  - now rewrite (replace_id_seen _ _ _ E).
  - rewrite (replace_id_new _ _ E).
    exact (numbered_insert id_for _ _ m id_for_number H E).
Qed.

Lemma numbered_init (fmt : string -> Z -> string) : numbered fmt ∅ 1.
Proof.
  split; [lia|]. split; intros *; rewrite lookup_empty; discriminate.
Qed.

Lemma after_phones_numbered (evs : list event) : phones_numbered (after evs init).
Proof.
  apply (after_keeps phones_numbered).
  - intros fid m self H. unfold phones_numbered in *.
    destruct (email_mappings self !! m) as [r|] eqn:E.
    + now rewrite (replace_email_seen _ _ _ _ E).
    + rewrite (replace_email_new _ _ _ E).
      destruct (nth_error (Str.split "@" m) 1); exact H.
  - intros; now apply replace_phone_numbered.
  - intros m self H. unfold phones_numbered in *.
    destruct (id_mappings self !! m) as [r|] eqn:E.
    + now rewrite (replace_id_seen _ _ _ E).
    + rewrite (replace_id_new _ _ E). exact H.
  - apply numbered_init.
Qed.

Lemma after_ids_numbered (evs : list event) : ids_numbered (after evs init).
Proof.
  apply (after_keeps ids_numbered).
  - intros fid m self H. unfold ids_numbered in *.
    destruct (email_mappings self !! m) as [r|] eqn:E.
    + now rewrite (replace_email_seen _ _ _ _ E).
    + rewrite (replace_email_new _ _ _ E).
      destruct (nth_error (Str.split "@" m) 1); exact H.
  - intros m self H. unfold ids_numbered in *.
    destruct (phone_mappings self !! m) as [r|] eqn:E.
    + now rewrite (replace_phone_seen _ _ _ E).
    + rewrite (replace_phone_new _ _ E). exact H.
  - intros; now apply replace_id_numbered.
  - apply numbered_init.
Qed.

(** X2.  In an instance that has gone through any calls since it was
    made, every phone placeholder ends with a number from 1 up to the
    number of entries of the phone table, and two different phone values
    never have the same placeholder. *)
Theorem phone_placeholders_distinct (evs : list event) (k1 k2 v1 v2 : string) :
  phone_mappings (after evs init) !! k1 = Some v1 ->
  phone_mappings (after evs init) !! k2 = Some v2 ->
  (exists c, placeholder_number v1 = Some c /\
             (1 <= c <= Z.of_nat (size (phone_mappings (after evs init))))%Z) /\
  (k1 <> k2 -> v1 <> v2).
Proof.
  intros H1 H2.
  destruct (after_phones_numbered evs) as (Hc & Hval & Hinj).
  pose proof (after_keeps counted replace_email_counted replace_phone_counted
                replace_id_counted evs init) as (Hsize & _).
  { repeat split. }
  split.
  - destruct (Hval _ _ H1) as (c & Hr & ->). exists c.
    split; [apply phone_for_number; lia | lia].
  - intros Hne ->. apply Hne. exact (Hinj _ _ _ H1 H2).
Qed.

Lemma phone_placeholders_distinct_witness :
  (exists c, placeholder_number "0XXX XXX 002" = Some c /\
     (1 <= c <= Z.of_nat (size (phone_mappings
        (after [CallText "Call +61 2 1234 5678 or 0412 345 678" "doc"] init))))%Z) /\
  ("0412 345 678" <> "+61 2 1234 5678" -> "0XXX XXX 002" <> "+61 XXX XXX 001").
Proof.
  apply (phone_placeholders_distinct
           [CallText "Call +61 2 1234 5678 or 0412 345 678" "doc"]
           "0412 345 678" "+61 2 1234 5678" "0XXX XXX 002" "+61 XXX XXX 001").
  - vm_compute. reflexivity.
  - vm_compute. reflexivity.
Defined.

(** X3.  In an instance that has gone through any calls since it was
    made, every identifier placeholder ends with a number from 1 up to the
    number of entries of the identifier table, and two different matched
    identifiers never have the same placeholder. *)
Theorem id_placeholders_distinct (evs : list event) (k1 k2 v1 v2 : string) :
  id_mappings (after evs init) !! k1 = Some v1 ->
  id_mappings (after evs init) !! k2 = Some v2 ->
  (exists c, placeholder_number v1 = Some c /\
             (1 <= c <= Z.of_nat (size (id_mappings (after evs init))))%Z) /\
  (k1 <> k2 -> v1 <> v2).
Proof.
  intros H1 H2.
  destruct (after_ids_numbered evs) as (Hc & Hval & Hinj).
  pose proof (after_keeps counted replace_email_counted replace_phone_counted
                replace_id_counted evs init) as (_ & Hsize & _).
  { repeat split. }
  split.
  - destruct (Hval _ _ H1) as (c & Hr & ->). exists c.
    split; [apply id_for_number; lia | lia].
  - intros Hne ->. apply Hne. exact (Hinj _ _ _ H1 H2).
Qed.

Lemma id_placeholders_distinct_witness :
  (exists c, placeholder_number "Mobile: XXXX002" = Some c /\
     (1 <= c <= Z.of_nat (size (id_mappings
        (after [CallIds "ID: 77 and Mobile: 0412345678"] init))))%Z) /\
  ("Mobile: 0412345678" <> "ID: 77" -> "Mobile: XXXX002" <> "ID: 000001").
Proof.
  apply (id_placeholders_distinct [CallIds "ID: 77 and Mobile: 0412345678"]
           "Mobile: 0412345678" "ID: 77" "Mobile: XXXX002" "ID: 000001").
  - vm_compute. reflexivity.
  - vm_compute. reflexivity.
Defined.

(** ** A text that is processed again *)

Section Again.

(** [repl] makes the entries of a table; [repl'] is a replacement
    function that gives back what it finds in the same table. *)
Variable table : PIIDeidentifier -> gmap string string.
Variables repl repl' : string -> M string.
Hypothesis repl_stores :
  forall m self r, fst (repl m self) = Ret r -> table (snd (repl m self)) !! m = Some r.
Hypothesis repl_grows :
  forall m self, table self ⊆ table (snd (repl m self)).
Hypothesis repl'_seen :
  forall m self r, table self !! m = Some r -> repl' m self = (Ret r, self).

Lemma subst_ret_table (segs : list Re.segment) :
  forall self out self',
    Re.subst repl segs self = (Ret out, self') ->
    table self ⊆ table self' /\
    (forall m, In (Re.Hit m) segs -> is_Some (table self' !! m)) /\
    out = Re.render segs (shown (table self')).
Proof.
  induction segs as [|[c|m] segs IH]; intros self out self' H; simpl in H.
  - injection H as <- <-. repeat split; [reflexivity | intros ? []].
  - destruct (Re.subst repl segs self) as [[o|e] s] eqn:E; [|discriminate].
    injection H as <- <-. destruct (IH _ _ _ E) as (Hg & Hin & ->).
    repeat split; auto. intros m [H|H]; [discriminate | auto].
  - pose proof (repl_stores m self) as Hst. pose proof (repl_grows m self) as Hg1.
    destruct (repl m self) as [[r|e] s0]; [|discriminate]. simpl in Hst, Hg1.
    specialize (Hst r eq_refl).
    destruct (Re.subst repl segs s0) as [[o|e] s] eqn:E; [|discriminate].
    injection H as <- <-. destruct (IH _ _ _ E) as (Hg & Hin & ->).
    pose proof (lookup_weaken _ _ _ _ Hst Hg) as Hm.
    repeat split.
    + etransitivity; eassumption.
    + intros m' [H|H]; [injection H as <-; eauto | auto].
    + simpl. f_equal. unfold shown. now rewrite Hm.
Qed.

Lemma subst_seen (segs : list Re.segment) (self : PIIDeidentifier) :
  (forall m, In (Re.Hit m) segs -> is_Some (table self !! m)) ->
  Re.subst repl' segs self = (Ret (Re.render segs (shown (table self))), self).
Proof.
  induction segs as [|[c|m] segs IH]; intros Hin; simpl.
  - reflexivity.
  - rewrite IH; [reflexivity | intros; apply Hin; now right].
  - destruct (Hin m) as [r Hr]; [now left|].
    rewrite (repl'_seen _ _ _ Hr), IH by (intros; apply Hin; now right).
    unfold shown at 2. now rewrite Hr.
Qed.

Lemma subst_again (segs : list Re.segment) (self s1 s2 : PIIDeidentifier) (out : string) :
  Re.subst repl segs self = (Ret out, s1) ->
  table s1 ⊆ table s2 ->
  Re.subst repl' segs s2 = (Ret out, s2).
Proof.
  intros (_ & Hin & ->)%subst_ret_table Hg.
  rewrite subst_seen.
  - f_equal. f_equal. apply render_ext. intros m Hm.
    destruct (Hin m Hm) as [r Hr]. unfold shown.
    now rewrite Hr, (lookup_weaken _ _ _ _ Hr Hg).
  - intros m Hm. destruct (Hin m Hm) as [r Hr].
    exists r. exact (lookup_weaken _ _ _ _ Hr Hg).
Qed.

Lemma sub_each_ret_grows (patterns : list Re.regex) :
  forall text self out self',
    sub_each patterns repl text self = (Ret out, self') -> table self ⊆ table self'.
Proof.
  induction patterns as [|p patterns IH]; intros text self out self' H; simpl in H.
  - now injection H as _ <-.
  - unfold bind, Re.sub_fn in H.
    destruct (Re.subst repl (Re.segments p text) self) as [[t1|e] sa] eqn:E; [|discriminate].
    apply subst_ret_table in E as (Hg & _). etransitivity; [exact Hg | eapply IH; exact H].
Qed.

Lemma sub_each_again (patterns : list Re.regex) :
  forall text self out s1 s2,
    sub_each patterns repl text self = (Ret out, s1) ->
    table s1 ⊆ table s2 ->
    sub_each patterns repl' text s2 = (Ret out, s2).
Proof.
  induction patterns as [|p patterns IH]; intros text self out s1 s2 H Hg; simpl in *.
  - now injection H as <- _.
  - unfold bind, Re.sub_fn in *.
    destruct (Re.subst repl (Re.segments p text) self) as [[t1|e] sa] eqn:E; [|discriminate].
    pose proof (sub_each_ret_grows _ _ _ _ _ H) as Hga.
    rewrite (subst_again _ _ _ s2 _ E) by (etransitivity; eassumption).
    eapply IH; eassumption.
Qed.

End Again.

Lemma replace_email_table_grows (file_identifier m : string) (self : PIIDeidentifier) :
  email_mappings self ⊆ email_mappings (snd (replace_email file_identifier m self)).
Proof. apply replace_email_grows. Qed.

Lemma replace_phone_table_grows (m : string) (self : PIIDeidentifier) :
  phone_mappings self ⊆ phone_mappings (snd (replace_phone m self)).
Proof. apply replace_phone_grows. Qed.

Lemma replace_id_table_grows (m : string) (self : PIIDeidentifier) :
  id_mappings self ⊆ id_mappings (snd (replace_id m self)).
Proof. apply replace_id_grows. Qed.

Lemma emails_again (text id1 id2 out : string) (self s1 s2 : PIIDeidentifier) :
  deidentify_emails text id1 self = (Ret out, s1) ->
  email_mappings s1 ⊆ email_mappings s2 ->
  deidentify_emails text id2 s2 = (Ret out, s2).
Proof.
  apply (subst_again email_mappings (replace_email id1) (replace_email id2)).
  - intros; now apply replace_email_stores.
  - intros; apply replace_email_table_grows.
  - intros; now apply replace_email_seen.
Qed.

Lemma phones_again (text out : string) (self s1 s2 : PIIDeidentifier) :
  deidentify_phones text self = (Ret out, s1) ->
  phone_mappings s1 ⊆ phone_mappings s2 ->
  deidentify_phones text s2 = (Ret out, s2).
Proof.
  apply (sub_each_again phone_mappings replace_phone replace_phone).
  - intros; now apply replace_phone_stores.
  - intros; apply replace_phone_table_grows.
  - intros; now apply replace_phone_seen.
Qed.

Lemma ids_again (text out : string) (self s1 s2 : PIIDeidentifier) :
  deidentify_ids text self = (Ret out, s1) ->
  id_mappings s1 ⊆ id_mappings s2 ->
  deidentify_ids text s2 = (Ret out, s2).
Proof.
  apply (sub_each_again id_mappings replace_id replace_id).
  - intros; now apply replace_id_stores.
  - intros; apply replace_id_table_grows.
  - intros; now apply replace_id_seen.
Qed.

(** The result of the name pass does not depend on the instance. *)
Lemma deidentify_names_any (text file_identifier : string) (self other : PIIDeidentifier) :
  deidentify_names text file_identifier other
  = (fst (deidentify_names text file_identifier self), other).
Proof.
  unfold deidentify_names, deidentify_names_in, bind, lift.
  destruct (sub_names full_name_pattern _ _ _) as [t|e]; reflexivity.
Qed.

(** X4.  When [deidentify_text] has returned for a text and an
    identifier, the same call made again on the same instance, at once or
    after any other calls, returns the same output and leaves the instance
    as it finds it. *)
Theorem reprocessing_repeats (text file_identifier out : string)
    (self s1 : PIIDeidentifier) (evs : list event) :
  deidentify_text text file_identifier self = (Ret out, s1) ->
  deidentify_text text file_identifier (after evs s1) = (Ret out, after evs s1).
Proof.
  intros H. pose proof (after_grows evs s1) as (Ge & Gp & Gi).
  unfold deidentify_text, bind, ret in H.
  destruct (deidentify_emails text _ self) as [[t1|e] sa] eqn:E1; [|discriminate].
  destruct (deidentify_phones t1 sa) as [[t2|e] sb] eqn:E2; [|discriminate].
  pose proof (deidentify_names_any t2 (Str.upper file_identifier) sb sb) as E3.
  pose proof (deidentify_names_any t2 (Str.upper file_identifier) sb (after evs s1)) as E3'.
  destruct (deidentify_names t2 _ sb) as [[t3|e] sc] eqn:E3c; [|discriminate].
  simpl in E3, E3'. injection E3 as ->.
  destruct (deidentify_ids t3 sb) as [[t4|e] sd] eqn:E4; [|discriminate].
  injection H as -> ->.
  pose proof (deidentify_phones_grows t1 sa) as (Ha & _ & _). rewrite E2 in Ha.
  pose proof (deidentify_ids_grows t3 sb) as (Hb & Hc & _). rewrite E4 in Hb, Hc.
  simpl in Ha, Hb, Hc.
  rewrite (deidentify_text_steps text file_identifier t1 t2 t3
             (after evs s1) (after evs s1) (after evs s1) (after evs s1)).
  - eapply ids_again; eassumption.
  - eapply emails_again; [exact E1|]. repeat (etransitivity; [eassumption|]). reflexivity.
  - eapply phones_again; [exact E2|]. repeat (etransitivity; [eassumption|]). reflexivity.
  - exact E3'.
Qed.

Lemma reprocessing_repeats_witness :
  deidentify_text "Mail jo@x.org, ID: 5" "doc"
    (after [CallPhones "0412 345 678"]
       (snd (deidentify_text "Mail jo@x.org, ID: 5" "doc" init)))
  = (Ret "Mail doc@example.com, ID: 000001",
     after [CallPhones "0412 345 678"]
       (snd (deidentify_text "Mail jo@x.org, ID: 5" "doc" init))).
Proof.
  apply (reprocessing_repeats "Mail jo@x.org, ID: 5" "doc" _ init).
  vm_compute. reflexivity.
Defined.

(** X5.  When the email pass has returned for a text, the email pass on
    the same text and the same instance, at once or after any other calls
    and with any identifier, returns the same output and leaves the
    instance as it finds it. *)
Theorem email_pass_repeats (text id1 id2 out : string)
    (self s1 : PIIDeidentifier) (evs : list event) :
  deidentify_emails text id1 self = (Ret out, s1) ->
  deidentify_emails text id2 (after evs s1) = (Ret out, after evs s1).
Proof.
  intros H. eapply emails_again; [exact H|]. apply after_grows.
Qed.

Lemma email_pass_repeats_witness :
  deidentify_emails "Mail jo@x.org and al@gmail.com" "other"
    (after [CallIds "ID: 5"]
       (snd (deidentify_emails "Mail jo@x.org and al@gmail.com" "doc" init)))
  = (Ret "Mail doc@example.com and doc@gmail.com",
     after [CallIds "ID: 5"]
       (snd (deidentify_emails "Mail jo@x.org and al@gmail.com" "doc" init))).
Proof.
  apply (email_pass_repeats "Mail jo@x.org and al@gmail.com" "doc" "other" _ init).
  vm_compute. reflexivity.
Defined.

(** ** Text that a pass cannot touch *)

(** A match reported by the scan stands in the subject. *)
Lemma scan_hit_infix (r : Re.regex) (m : string) (s : string) :
  forall prev skip,
    In (Re.Hit m) (Re.scan r prev s skip) ->
    exists pre post,
      s = pre +:+ m +:+ post /\ (skip <= String.length pre)%nat /\
      Re.den r (Str.last_of prev pre) m post.
Proof.
  induction s as [|c s IH]; intros prev skip H; simpl in H; [contradiction|].
  destruct skip as [|k].
  - destruct (Re.match_len r prev (String c s)) as [[|n]|] eqn:Hm.
    + destruct H as [H|H]; [discriminate|].
      destruct (IH _ _ H) as (pre & post & -> & _ & Hd).
      exists (String c pre), post. repeat split; auto. simpl. lia.
    + destruct H as [H|H].
      * injection H as <-.
        apply ReFacts.match_len_sound in Hm as (w & rest & Hs & Hd & Hn).
        change (String c (Str.take n s)) with (Str.take (S n) (String c s)).
        rewrite Hs, <- Hn, take_append.
        exists "", rest. repeat split; auto.
      * destruct (IH _ _ H) as (pre & post & -> & _ & Hd).
        exists (String c pre), post. repeat split; auto. simpl. lia.
    + destruct H as [H|H]; [discriminate|].
      destruct (IH _ _ H) as (pre & post & -> & _ & Hd).
      exists (String c pre), post. repeat split; auto. simpl. lia.
  - destruct (IH _ _ H) as (pre & post & -> & Hk & Hd).
    exists (String c pre), post. repeat split; auto. simpl. lia.
Qed.

Lemma free_of_reads (q : ascii -> bool) (r : Re.regex) (text : string) :
  reads q r ->
  Str.forallb (fun c => negb (q c)) text = true ->
  free_of r text.
Proof.
  intros Hr Ht m Hin.
  apply scan_hit_infix in Hin as (pre & post & -> & _ & Hd).
  apply Hr in Hd.
  rewrite !forallb_append in Ht.
  apply andb_true_iff in Ht as [_ [Hm _]%andb_true_iff]. congruence.
Qed.

Lemma reads_cat_l (q : ascii -> bool) (r1 r2 : Re.regex) :
  reads q r1 -> reads q (Re.Cat r1 r2).
Proof.
  intros H prev w rest (w1 & w2 & -> & H1 & _). apply H in H1.
  rewrite forallb_append, H1. reflexivity.
Qed.

Lemma reads_cat_r (q : ascii -> bool) (r1 r2 : Re.regex) :
  reads q r2 -> reads q (Re.Cat r1 r2).
Proof.
  intros H prev w rest (w1 & w2 & -> & _ & H2). apply H in H2.
  rewrite forallb_append, H2. apply andb_false_r.
Qed.

Lemma reads_rep (q : ascii -> bool) (lo : nat) (hi : option nat) :
  (1 <= lo)%nat -> reads q (Re.Rep q lo hi).
Proof.
  intros Hlo prev w rest (Hw & Hlen & _).
  destruct w as [|c w]; [simpl in Hlen; lia|].
  simpl in *. apply andb_true_iff in Hw as [-> _]. reflexivity.
Qed.

Lemma reads_class (q : ascii -> bool) : reads q (Re.Class q).
Proof. intros prev w rest (c & -> & Hc). simpl. now rewrite Hc. Qed.

Lemma email_reads_at : reads (Ascii.eqb "@") email_pattern.
Proof.
  unfold email_pattern. cbn [Re.seq]. unfold Re.lit.
  repeat first [ apply reads_cat_l; solve [apply reads_class] | apply reads_cat_r ].
Qed.

Lemma email_reads_dot : reads (Ascii.eqb ".") email_pattern.
Proof.
  unfold email_pattern. cbn [Re.seq]. unfold Re.lit.
  repeat first [ apply reads_cat_l; solve [apply reads_class] | apply reads_cat_r ].
Qed.

Lemma phones_read_digit : Forall (reads Chr.is_digit) phone_patterns.
Proof.
  unfold phone_patterns, phone_plus61, phone_mobile, phone_digits, phone_area,
    phone_landline, Re.plus, Re.exactly.
  cbn [Re.seq].
  repeat constructor;
    repeat first [ apply reads_cat_l; solve [apply reads_rep; lia] | apply reads_cat_r ].
Qed.

Lemma ids_read_digit : Forall (reads Chr.is_digit) id_patterns.
Proof.
  unfold id_patterns, id_label, mobile_label, Re.plus.
  cbn [Re.seq].
  repeat constructor;
    repeat first [ apply reads_cat_l; solve [apply reads_rep; lia] | apply reads_cat_r ].
Qed.

(** X6.  A text without [@], or without a dot, comes back from the
    email pass as it is, and the instance is not changed. *)
Theorem emails_need_at_and_dot (text file_identifier : string) (self : PIIDeidentifier) :
  Str.contains "@" text = false \/ Str.contains "." text = false ->
  deidentify_emails text file_identifier self = (Ret text, self).
Proof.
  intros H.
  assert (Hfree : free_of email_pattern text).
  { destruct H as [H|H]; rewrite contains_char in H; apply negb_false_iff in H.
    - apply (free_of_reads (Ascii.eqb "@")); [apply email_reads_at|].
      erewrite forallb_impl; [reflexivity| |exact H].
      intros c. unfold differs. now rewrite Ascii.eqb_sym.
    - apply (free_of_reads (Ascii.eqb ".")); [apply email_reads_dot|].
      erewrite forallb_impl; [reflexivity| |exact H].
      intros c. unfold differs. now rewrite Ascii.eqb_sym. }
  unfold deidentify_emails, Re.sub_fn, Re.segments.
  now destruct (scan_free email_pattern (fun m => m) text None Hfree) as [_ ->].
Qed.

Lemma emails_need_at_and_dot_witness :
  deidentify_emails "mail root@localhost, then wait" "doc" init
  = (Ret "mail root@localhost, then wait", init).
Proof. apply emails_need_at_and_dot. right. reflexivity. Defined.

(** X7.  A text of ASCII characters without a decimal digit comes back
    from the phone pass and from the identifier pass as it is, and the
    instance is not changed. *)
Theorem digits_needed (text : string) (self : PIIDeidentifier) :
  ascii_text text = true ->
  Str.forallb no_digit text = true ->
  deidentify_phones text self = (Ret text, self) /\
  deidentify_ids text self = (Ret text, self).
Proof.
  intros _ H. split.
  - apply sub_each_free. eapply Forall_impl; [apply phones_read_digit|].
    intros r Hr. now apply (free_of_reads Chr.is_digit).
  - apply sub_each_free. eapply Forall_impl; [apply ids_read_digit|].
    intros r Hr. now apply (free_of_reads Chr.is_digit).
Qed.

Lemma digits_needed_witness :
  deidentify_phones "ID: none, Mobile: (ask) +x" init
  = (Ret "ID: none, Mobile: (ask) +x", init) /\
  deidentify_ids "ID: none, Mobile: (ask) +x" init
  = (Ret "ID: none, Mobile: (ask) +x", init).
Proof. apply digits_needed; reflexivity. Defined.

(** ** The placeholder a pattern leads to *)

Lemma den_lits (s : string) :
  forall prev w rest, Re.den (Re.lits s) prev w rest -> w = s.
Proof.
  induction s as [|c s IH]; intros prev w rest H.
  - exact H.
  - change (Re.lits (String c s)) with (Re.Cat (Re.lit c) (Re.lits s)) in H.
    destruct H as (w1 & w2 & -> & (d & -> & Hd) & H2).
    apply Ascii.eqb_eq in Hd as <-. apply IH in H2 as ->. reflexivity.
Qed.

Lemma prefix_append (p s : string) : String.prefix p (p +:+ s) = true.
Proof.
  induction p as [|c p IH]; simpl; [now destruct s|].
  destruct (ascii_dec c c); [exact IH | congruence].
Qed.

Lemma contains_unfold (p s : string) :
  Str.contains p s =
  String.prefix p s ||
  match s with EmptyString => false | String _ s' => Str.contains p s' end.
Proof. now destruct s. Qed.

Lemma contains_prefix (p s : string) : Str.contains p (p +:+ s) = true.
Proof. now rewrite contains_unfold, prefix_append. Qed.

(** A string without the first character of [p] does not contain [p]. *)
Lemma contains_without (c : ascii) (p m : string) :
  Str.forallb (differs c) m = true -> Str.contains (String c p) m = false.
Proof.
  induction m as [|d m IH]; [reflexivity|]. simpl.
  intros [Hd Hm]%andb_true_iff. rewrite (IH Hm).
  destruct (ascii_dec c d) as [->|_]; [|reflexivity].
  unfold differs in Hd. now rewrite Ascii.eqb_refl in Hd.
Qed.

Lemma only_cat (q : ascii -> bool) (r1 r2 : Re.regex) :
  reads_only q r1 -> reads_only q r2 -> reads_only q (Re.Cat r1 r2).
Proof.
  intros H1 H2 prev w rest (w1 & w2 & -> & D1 & D2).
  now rewrite forallb_append, (H1 _ _ _ D1), (H2 _ _ _ D2).
Qed.

Lemma only_class (q p : ascii -> bool) :
  (forall c, p c = true -> q c = true) -> reads_only q (Re.Class p).
Proof. intros H prev w rest (c & -> & Hc). simpl. now rewrite (H c Hc). Qed.

Lemma only_rep (q p : ascii -> bool) (lo : nat) (hi : option nat) :
  (forall c, p c = true -> q c = true) -> reads_only q (Re.Rep p lo hi).
Proof. intros H prev w rest (Hw & _). exact (forallb_impl _ _ _ H Hw). Qed.

Lemma only_boundary (q : ascii -> bool) : reads_only q Re.WordB.
Proof. now intros prev w rest [-> _]. Qed.

Lemma only_eps (q : ascii -> bool) : reads_only q Re.Eps.
Proof. now intros prev w rest ->. Qed.

Lemma area_reads_no_plus : reads_only (differs "+") phone_area.
Proof.
  unfold phone_area, Re.exactly, Re.opt, Re.lit. cbn [Re.seq].
  repeat first [ apply only_cat | apply only_boundary | apply only_eps
               | apply only_rep; let c := fresh "c" in intros c; by_cases_on c
               | apply only_class; let c := fresh "c" in intros c; by_cases_on c ].
Qed.

Lemma digits_reads_digits : reads_only Chr.is_digit phone_digits.
Proof.
  unfold phone_digits. cbn [Re.seq].
  repeat first [ apply only_cat | apply only_boundary | apply only_eps
               | apply only_rep; let c := fresh "c" in intros c; by_cases_on c
               | apply only_class; let c := fresh "c" in intros c; by_cases_on c ].
Qed.

Lemma digit_no_plus (c : ascii) : Chr.is_digit c = true -> differs "+" c = true.
Proof. by_cases_on c. Qed.

Lemma mobile_reads_no_capital_i : reads_only (differs "I") mobile_label.
Proof.
  unfold mobile_label, Re.lits, Re.star, Re.plus, Re.lit.
  cbn [Re.seq List.map list_ascii_of_string].
  repeat first [ apply only_cat | apply only_boundary | apply only_eps
               | apply only_rep; let c := fresh "c" in intros c; by_cases_on c
               | apply only_class; let c := fresh "c" in intros c; by_cases_on c ].
Qed.

(** X8.  What a new phone value is replaced by follows from the pattern
    that matched it.  A match of the [+61] pattern gets the [+61 XXX XXX]
    form; a match of the mobile pattern or of the landline pattern
    [0[2-9] ...] gets the [0XXX XXX] form; a match of the pattern with the
    area code in parentheses gets the bare [XXX XXX] form; a run of nine or
    ten digits gets [0XXX XXX] when it starts with [0] and [XXX XXX]
    otherwise. *)
Theorem phone_placeholder_by_pattern (text m : string) (self : PIIDeidentifier) :
  phone_mappings self !! m = None ->
  let counter := Str.zfill 3 (Str.of_int (phone_counter self)) in
  (In (Re.Hit m) (Re.segments phone_plus61 text) ->
   fst (replace_phone m self) = Ret ("+61 XXX XXX " +:+ counter)) /\
  (In (Re.Hit m) (Re.segments phone_mobile text) ->
   fst (replace_phone m self) = Ret ("0XXX XXX " +:+ counter)) /\
  (In (Re.Hit m) (Re.segments phone_landline text) ->
   fst (replace_phone m self) = Ret ("0XXX XXX " +:+ counter)) /\
  (In (Re.Hit m) (Re.segments phone_area text) ->
   fst (replace_phone m self) = Ret ("XXX XXX " +:+ counter)) /\
  (In (Re.Hit m) (Re.segments phone_digits text) ->
   fst (replace_phone m self)
   = Ret ((if Str.startswith "0" m then "0XXX XXX " else "XXX XXX ") +:+ counter)).
Proof.
  intros Hnew counter. rewrite (replace_phone_new _ _ Hnew). unfold phone_for. simpl fst.
  repeat split.
  - intros (prev & w & rest & Hd & -> & _)%ReFacts.scan_hit.
    unfold phone_plus61 in Hd. cbn [Re.seq] in Hd.
    destruct Hd as (w1 & w2 & -> & ->%den_lits & _).
    change (Str.startswith "0" ("+61" +:+ w2)) with false.
    now rewrite contains_prefix.
  - intros (prev & w & rest & Hd & -> & _)%ReFacts.scan_hit.
    unfold phone_mobile in Hd. cbn [Re.seq] in Hd.
    destruct Hd as (w0 & w1 & -> & [-> _] & w2 & w3 & -> & (c & -> & Hc) & _).
    apply Ascii.eqb_eq in Hc as <-. simpl. now destruct w3.
  - intros (prev & w & rest & Hd & -> & _)%ReFacts.scan_hit.
    unfold phone_landline in Hd. cbn [Re.seq] in Hd.
    destruct Hd as (w0 & w1 & -> & [-> _] & w2 & w3 & -> & (c & -> & Hc) & _).
    apply Ascii.eqb_eq in Hc as <-. simpl. now destruct w3.
  - intros (prev & w & rest & Hd & -> & _)%ReFacts.scan_hit.
    pose proof (area_reads_no_plus _ _ _ Hd) as Hplus.
    unfold phone_area in Hd. cbn [Re.seq] in Hd.
    destruct Hd as (w0 & w1 & -> & [-> _] & w2 & w3 & -> & (c & -> & Hc) & _).
    apply Ascii.eqb_eq in Hc as <-.
    rewrite (contains_without "+" "61" _ Hplus). reflexivity.
  - intros (prev & w & rest & Hd & -> & _)%ReFacts.scan_hit.
    pose proof (digits_reads_digits _ _ _ Hd) as Hdig.
    rewrite (contains_without "+" "61" w (forallb_impl _ _ _ digit_no_plus Hdig)).
    now destruct (Str.startswith "0" w).
Qed.

Lemma phone_placeholder_by_pattern_witness :
  fst (replace_phone "02 1234 5678" init) = Ret ("0XXX XXX " +:+ "001") /\
  fst (replace_phone "(02) 1234 5678" init) = Ret ("XXX XXX " +:+ "001").
Proof.
  split.
  - apply (proj1 (proj2 (proj2 (phone_placeholder_by_pattern
             "Ring 02 1234 5678" "02 1234 5678" init eq_refl)))).
    vm_compute. do 5 right. left. reflexivity.
  - apply (proj1 (proj2 (proj2 (proj2 (phone_placeholder_by_pattern
             "x(02) 1234 5678" "(02) 1234 5678" init eq_refl))))).
    vm_compute. right. left. reflexivity.
Defined.

(** X9.  In the identifier pass a new match of the [ID:] pattern is
    replaced by [ID: ] and the counter filled to six digits, and a new
    match of the [Mobile:] pattern by [Mobile: XXXX] and the counter filled
    to three digits: the third form of the code, [ID_] and the counter, is
    given to no match of the two patterns. *)
Theorem id_placeholder_by_pattern (text m : string) (self : PIIDeidentifier) :
  id_mappings self !! m = None ->
  (In (Re.Hit m) (Re.segments id_label text) ->
   fst (replace_id m self)
   = Ret ("ID: " +:+ Str.zfill 6 (Str.of_int (id_counter self)))) /\
  (In (Re.Hit m) (Re.segments mobile_label text) ->
   fst (replace_id m self)
   = Ret ("Mobile: XXXX" +:+ Str.zfill 3 (Str.of_int (id_counter self)))).
Proof.
  intros Hnew. rewrite (replace_id_new _ _ Hnew). unfold id_for. simpl fst.
  split.
  - intros (prev & w & rest & Hd & -> & _)%ReFacts.scan_hit.
    unfold id_label in Hd. cbn [Re.seq] in Hd.
    destruct Hd as (w0 & w1 & -> & [-> _] & w2 & w3 & -> & ->%den_lits & _).
    change ("" +:+ "ID:" +:+ w3) with ("ID:" +:+ w3).
    now rewrite contains_prefix.
  - intros (prev & w & rest & Hd & -> & _)%ReFacts.scan_hit.
    pose proof (mobile_reads_no_capital_i _ _ _ Hd) as Hi.
    rewrite (contains_without "I" "D:" _ Hi).
    unfold mobile_label in Hd. cbn [Re.seq] in Hd.
    destruct Hd as (w0 & w1 & -> & [-> _] & w2 & w3 & -> & ->%den_lits & _).
    change ("" +:+ "Mobile:" +:+ w3) with ("Mobile:" +:+ w3).
    now rewrite contains_prefix.
Qed.

Lemma id_placeholder_by_pattern_witness :
  fst (replace_id "Mobile:0412345678" init)
  = Ret ("Mobile: XXXX" +:+ Str.zfill 3 (Str.of_int (id_counter init))).
Proof.
  apply (proj2 (id_placeholder_by_pattern "Mobile:0412345678" "Mobile:0412345678"
                  init eq_refl)).
  vm_compute. left. reflexivity.
Defined.

(** ** Where the pattern of a first name matches *)

Lemma run_lits {R : Type} (name : string) :
  forall prev s n (k : Re.cont R),
    Re.run (Re.lits name) prev s n k =
    if Str.startswith name s
    then k (Str.last_of prev name) (Str.drop (String.length name) s)
           (n + String.length name)%nat
    else None.
Proof.
  unfold Str.startswith.
  induction name as [|a name IH]; intros prev s n k.
  - simpl. rewrite Nat.add_0_r. now destruct s.
  - destruct s as [|b s]; [reflexivity|].
    change (Re.lits (String a name)) with (Re.Cat (Re.lit a) (Re.lits name)).
    simpl. destruct (ascii_dec a b) as [<-|Hne].
    + rewrite Ascii.eqb_refl, IH. simpl. now rewrite <- plus_n_Sm.
    + apply Ascii.eqb_neq in Hne. now rewrite Hne.
Qed.

Lemma space_not_upper (c : ascii) : Chr.is_space c = true -> Chr.is_upper c = false.
Proof. by_cases_on c. Qed.

(** The look-ahead [\s+[A-Z]], with its giving back of blanks, succeeds
    exactly on blanks followed by a capital letter. *)
Lemma rep_lookahead (s : string) :
  forall lo prev n,
    (lo <= 1)%nat ->
    Re.rep Chr.is_space lo None prev s n
      (fun p s' n' => Re.run (Re.Class Chr.is_upper) p s' n' (fun _ _ _ => Some tt))
    = if capital_after_blanks (lo =? 0)%nat s then Some tt else None.
Proof.
  induction s as [|c s IH]; intros lo prev n Hlo.
  - simpl. now destruct lo.
  - simpl. destruct (Chr.is_space c) eqn:Hc; simpl.
    + rewrite IH by (destruct lo; simpl; lia).
      replace (Nat.pred lo =? 0)%nat with true by (destruct lo as [|[|lo]]; simpl; lia).
      destruct (capital_after_blanks true s); [reflexivity|].
      destruct lo; [|reflexivity]. now rewrite (space_not_upper c Hc).
    + destruct lo as [|lo]; simpl; [|reflexivity].
      now destruct (Chr.is_upper c).
Qed.

Lemma run_first_name {R : Type} (name : string) (prev : option ascii) (s : string)
    (n : nat) (k : Re.cont R) :
  Re.run (first_name_pattern name) prev s n k =
  if Re.at_boundary prev s && Str.startswith name s &&
     Re.at_boundary (Str.last_of prev name) (Str.drop (String.length name) s) &&
     negb (followed_by_capital (Str.drop (String.length name) s))
  then k (Str.last_of prev name) (Str.drop (String.length name) s)
         (n + String.length name)%nat
  else None.
Proof.
  unfold first_name_pattern. cbn [Re.seq Re.run].
  destruct (Re.at_boundary prev s); [|reflexivity].
  rewrite run_lits. destruct (Str.startswith name s); [|reflexivity].
  destruct (Re.at_boundary _ _); [|reflexivity].
  unfold Re.plus. cbn [Re.run]. rewrite rep_lookahead by lia.
  unfold followed_by_capital. simpl.
  now destruct (capital_after_blanks false _).
Qed.

(** X10.  In a text of ASCII characters the pattern made for a listed
    first name matches at a position exactly when the position is at a
    word boundary, the text goes on with the name, the name ends at a word
    boundary, and what comes after the name is not one or more blanks and
    then a capital letter; the match is the name. *)
Theorem first_name_match (name : string) (prev : option ascii) (s : string) :
  In name common_first_names ->
  ascii_before prev = true ->
  ascii_text s = true ->
  Re.match_len (first_name_pattern name) prev s =
  if Re.at_boundary prev s && Str.startswith name s &&
     Re.at_boundary (Str.last_of prev name) (Str.drop (String.length name) s) &&
     negb (followed_by_capital (Str.drop (String.length name) s))
  then Some (String.length name) else None.
Proof.
  intros _ _ _. unfold Re.match_len. rewrite run_first_name.
  destruct (_ && _); reflexivity.
Qed.

Lemma first_name_match_witness :
  Re.match_len (first_name_pattern "John") None "John said" = Some 4%nat /\
  Re.match_len (first_name_pattern "John") (Some " "%char) "John  Smith" = None /\
  Re.match_len (first_name_pattern "John") (Some " "%char) "Johnny" = None /\
  Re.match_len (first_name_pattern "John") (Some "x"%char) "John" = None.
Proof.
  split; [|split; [|split]].
  - rewrite (first_name_match "John" None "John said");
      [reflexivity | do 3 right; left; reflexivity | reflexivity | reflexivity].
  - rewrite (first_name_match "John" (Some " "%char) "John  Smith");
      [reflexivity | do 3 right; left; reflexivity | reflexivity | reflexivity].
  - rewrite (first_name_match "John" (Some " "%char) "Johnny");
      [reflexivity | do 3 right; left; reflexivity | reflexivity | reflexivity].
  - rewrite (first_name_match "John" (Some "x"%char) "John");
      [reflexivity | do 3 right; left; reflexivity | reflexivity | reflexivity].
Defined.

(** ** A first name at the start of a text *)

Lemma drop_append (a b : string) : Str.drop (String.length a) (a +:+ b) = b.
Proof. induction a as [|c a IH]; simpl; [now destruct b | exact IH]. Qed.

(** The scan passes the rest of a match. *)
Lemma scan_skip (r : Re.regex) (a b : string) :
  forall prev,
    Re.scan r prev (a +:+ b) (String.length a) = Re.scan r (Str.last_of prev a) b 0.
Proof.
  induction a as [|c a IH]; intros prev; simpl; [now destruct b|]. apply IH.
Qed.

Lemma boundary_inside (p c : ascii) (s : string) :
  Chr.is_word p = true -> Chr.is_word c = true ->
  Re.at_boundary (Some p) (String c s) = false.
Proof. intros Hp Hc. unfold Re.at_boundary. cbv beta iota zeta. now rewrite Hp, Hc. Qed.

Lemma boundary_start (c : ascii) (s : string) :
  Chr.is_word c = true -> Re.at_boundary None (String c s) = true.
Proof. intros Hc. unfold Re.at_boundary. cbv beta iota zeta. now rewrite Hc. Qed.

Lemma boundary_end (q : ascii) (post : string) :
  Chr.is_word q = true -> word_ends post = true ->
  Re.at_boundary (Some q) post = true.
Proof.
  intros Hq Hend. unfold Re.at_boundary. cbv beta iota zeta. rewrite Hq.
  destruct post as [|d post]; [reflexivity|]. unfold word_ends in Hend.
  apply negb_true_iff in Hend. now rewrite Hend.
Qed.

(** Inside a word the pattern of a first name has no match. *)
Lemma scan_inside_word (name : string) (f : string -> string) (a b : string) :
  forall p,
    Chr.is_word p = true -> Str.forallb Chr.is_word a = true ->
    Re.render (Re.scan (first_name_pattern name) (Some p) (a +:+ b) 0) f
    = a +:+ Re.render (Re.scan (first_name_pattern name)
                         (Str.last_of (Some p) a) b 0) f.
Proof.
  induction a as [|c a IH]; intros p Hp Ha; [reflexivity|].
  simpl in Ha. apply andb_true_iff in Ha as [Hc Ha].
  change (String c a +:+ b) with (String c (a +:+ b)).
  cbn [Re.scan]. unfold Re.match_len. rewrite run_first_name.
  rewrite (boundary_inside p c _ Hp Hc). cbn [andb Re.render].
  now rewrite IH.
Qed.

Lemma first_names_are_words (name : string) :
  In name common_first_names ->
  exists c name', name = String c name' /\ Chr.is_word c = true /\
                  Str.forallb Chr.is_word name' = true.
Proof.
  unfold common_first_names. intros H.
  repeat (destruct H as [<-|H]; [eexists _, _; repeat split; reflexivity|]).
  destruct H.
Qed.

Lemma last_is_word (p : ascii) (a : string) :
  Chr.is_word p = true -> Str.forallb Chr.is_word a = true ->
  exists q, Str.last_of (Some p) a = Some q /\ Chr.is_word q = true.
Proof.
  revert p. induction a as [|c a IH]; intros p Hp Ha; simpl in *; [eauto|].
  apply andb_true_iff in Ha as [Hc Ha]. now apply IH.
Qed.

(** X11.  The substitution for a listed first name, with an identifier
    free of backslashes, on a text of ASCII characters that starts with
    the name: when blanks
    and then a capital letter come after the name, the name stays and the
    substitution goes on behind it; when the name ends as a word and no
    such capital comes after it, the identifier takes its place. *)
Theorem first_name_rule (name post file_identifier : string) :
  In name common_first_names ->
  ascii_text post = true ->
  Str.contains "\" file_identifier = false ->
  let behind :=
    Re.render (Re.scan (first_name_pattern name) (Str.last_of None name) post 0)
              (fun _ => file_identifier) in
  (followed_by_capital post = true ->
   Re.sub_template (first_name_pattern name) file_identifier (name +:+ post)
   = Ret (name +:+ behind)) /\
  (word_ends post = true -> followed_by_capital post = false ->
   Re.sub_template (first_name_pattern name) file_identifier (name +:+ post)
   = Ret (file_identifier +:+ behind)).
Proof.
  intros (c & name' & -> & Hc & Hw)%first_names_are_words _ Hb behind.
  unfold Re.sub_template. rewrite Hb. simpl negb. cbv iota.
  unfold Re.segments.
  change (String c name' +:+ post) with (String c (name' +:+ post)).
  cbn [Re.scan]. unfold Re.match_len. rewrite run_first_name.
  change (String c (name' +:+ post)) with (String c name' +:+ post).
  rewrite drop_append.
  split.
  - intros Hcap. rewrite Hcap, andb_false_r.
    cbn [Re.render]. rewrite scan_inside_word by assumption. reflexivity.
  - intros Hend Hcap. rewrite Hcap.
    unfold Str.startswith. rewrite prefix_append.
    assert (Hb1 : Re.at_boundary None (String c name' +:+ post) = true).
    { exact (boundary_start c (name' +:+ post) Hc). }
    assert (Hb2 : Re.at_boundary (Str.last_of None (String c name')) post = true).
    { change (Str.last_of None (String c name')) with (Str.last_of (Some c) name').
      destruct (last_is_word c name' Hc Hw) as (q & -> & Hq).
      now apply boundary_end. }
    rewrite Hb1, Hb2. simpl andb. cbv iota. rewrite Nat.add_0_l.
    cbn [String.length Re.render Str.take].
    rewrite scan_skip. reflexivity.
Qed.

Lemma first_name_rule_witness :
  Re.sub_template (first_name_pattern "John") "P07" ("John" +:+ "  Smith and John")
  = Ret ("John" +:+ "  Smith and P07") /\
  Re.sub_template (first_name_pattern "John") "P07" ("John" +:+ " said John")
  = Ret ("P07" +:+ " said P07").
Proof.
  pose proof (first_name_rule "John" "  Smith and John" "P07") as H1.
  pose proof (first_name_rule "John" " said John" "P07") as H2.
  split.
  - apply H1; [do 3 right; left; reflexivity | reflexivity | reflexivity | reflexivity].
  - apply H2; [do 3 right; left; reflexivity | reflexivity | reflexivity | reflexivity
               | reflexivity].
Defined.

(** ** The identifier of a file *)

Lemma rfind_none (c : ascii) (s : string) :
  Str.forallb (differs c) s = true -> rfind c s = (-1)%Z.
Proof.
  induction s as [|d s IH]; [reflexivity|]. simpl.
  intros [Hd Hs]%andb_true_iff. rewrite (IH Hs). simpl.
  unfold differs in Hd. apply negb_true_iff in Hd. now rewrite Hd.
Qed.

Lemma rfind_last (c : ascii) (a b : string) :
  Str.forallb (differs c) b = true ->
  rfind c (a +:+ String c b) = Z.of_nat (String.length a).
Proof.
  intros Hb. induction a as [|d a IH].
  - simpl. now rewrite (rfind_none c b Hb), Ascii.eqb_refl.
  - change (String d a +:+ String c b) with (String d (a +:+ String c b)).
    cbn [rfind]. rewrite IH.
    replace (0 <=? Z.of_nat (String.length a))%Z with true
      by (symmetry; apply Z.leb_le; lia).
    cbn [String.length]. lia.
Qed.

(** The stem of [base.ext] is [base]. *)
Lemma stem_suffix (base ext : string) :
  base <> "" -> ext <> "" -> Str.forallb (differs ".") ext = true ->
  stem (base +:+ String "." ext) = base.
Proof.
  intros Hbase Hext Hdot. unfold stem. rewrite (rfind_last "." base ext Hdot).
  rewrite length_append. cbn [String.length].
  assert (0 < String.length base)%nat by (destruct base; [congruence | simpl; lia]).
  assert (0 < String.length ext)%nat by (destruct ext; [congruence | simpl; lia]).
  replace (0 <? Z.of_nat (String.length base))%Z with true
    by (symmetry; apply Z.ltb_lt; lia).
  replace (Z.of_nat (String.length base)
           <? Z.of_nat (String.length base + S (String.length ext)) - 1)%Z with true
    by (symmetry; apply Z.ltb_lt; lia).
  simpl andb. cbv iota. rewrite Nat2Z.id. apply take_append.
Qed.

(** X12.  For a file named [base.ext], [process_file] uses as identifier
    the base, without the prefix [deidentified_] when the base starts with
    it; the prefix is taken off whole and once.  The output is named
    [deidentified_base.ext], and when that file is processed in its turn
    its identifier is [base]. *)
Theorem identifier_of_file (base ext : string) :
  base <> "" -> ext <> "" -> Str.forallb (differs ".") ext = true ->
  let name := base +:+ String "." ext in
  (Str.startswith "deidentified_" base = false -> file_identifier_for name = base) /\
  (forall rest, base = "deidentified_" +:+ rest -> file_identifier_for name = rest) /\
  file_identifier_for (output_name name) = base.
Proof.
  intros Hbase Hext Hdot name. unfold name, file_identifier_for.
  repeat split.
  - intros Hp. now rewrite (stem_suffix base ext Hbase Hext Hdot), Hp.
  - intros rest ->. rewrite (stem_suffix _ ext Hbase Hext Hdot).
    unfold Str.startswith. rewrite prefix_append.
    exact (drop_append "deidentified_" rest).
  - unfold output_name. rewrite <- append_assoc.
    rewrite (stem_suffix ("deidentified_" +:+ base) ext) by (auto; discriminate).
    unfold Str.startswith. rewrite prefix_append.
    exact (drop_append "deidentified_" base).
Qed.

Lemma identifier_of_file_witness :
  file_identifier_for "deidentified_deidentified_p1.v2.md" = "deidentified_p1.v2" /\
  file_identifier_for (output_name "deidentified_deidentified_p1.v2.md")
  = "deidentified_deidentified_p1.v2".
Proof.
  pose proof (identifier_of_file "deidentified_deidentified_p1.v2" "md") as H.
  destruct H as (_ & H2 & H3); [discriminate | discriminate | reflexivity |].
  split; [apply H2; reflexivity | exact H3].
Defined.

(** A name that is only a suffix is its own stem, and the identifier of
    its output is empty. *)
Example hidden_file_identifier :
  file_identifier_for ".md" = ".md" /\ file_identifier_for (output_name ".md") = "".
Proof. split; reflexivity. Qed.

(** ** The only error of [deidentify_text] *)

Lemma sub_template_outcome (r : Re.regex) (repl text : string) :
  match template_error repl with
  | None => exists out, Re.sub_template r repl text = Ret out
  | Some e => Re.sub_template r repl text = Raise e
  end.
Proof.
  unfold template_error, Re.sub_template.
  destruct (negb (Str.contains "\" repl)); [eauto|].
  destruct (Re.parse_template repl); eauto.
Qed.

Lemma sub_names_outcome (pattern : string -> Re.regex) (names : list string)
    (repl : string) :
  forall text,
    match template_error repl with
    | None => exists out, sub_names pattern names repl text = Ret out
    | Some e => names <> [] -> sub_names pattern names repl text = Raise e
    end.
Proof.
  destruct (template_error repl) as [e|] eqn:E.
  - intros text Hne. destruct names as [|name names]; [congruence|]. simpl.
    pose proof (sub_template_outcome (pattern name) repl text) as H.
    rewrite E in H. now rewrite H.
  - induction names as [|name names IH]; intros text; simpl; [eauto|].
    pose proof (sub_template_outcome (pattern name) repl text) as H.
    rewrite E in H. destruct H as [out ->]. apply IH.
Qed.

(** X13.  For a text and an identifier of ASCII characters:
    [deidentify_text] returns when the identifier in upper case is a
    template that [re] accepts; when it is one that [re] refuses, and holds
    no backslash before a letter, the call raises, whatever the text, the
    exception is that of the template, and the instance then holds what the
    email pass and the phone pass have put in it.  (A backslash before a
    letter is refused from Python 3.7 on.) *)
Theorem text_error_is_template_error (text file_identifier : string)
    (self : PIIDeidentifier) :
  ascii_text text = true ->
  ascii_text file_identifier = true ->
  (template_error (Str.upper file_identifier) = None ->
   exists out self', deidentify_text text file_identifier self = (Ret out, self')) /\
  (forall e,
      template_error (Str.upper file_identifier) = Some e ->
      letter_escape_free (Str.upper file_identifier) = true ->
      exists t1 s1 t2 s2,
        deidentify_emails text (Str.lower file_identifier) self = (Ret t1, s1) /\
        deidentify_phones t1 s1 = (Ret t2, s2) /\
        deidentify_text text file_identifier self = (Raise e, s2)).
Proof.
  intros _ _.
  destruct (emails_pass text (Str.lower file_identifier) self) as (t1 & s1 & E1 & _).
  destruct (sub_each_returns replace_phone phone_patterns) with (text := t1) (self := s1)
    as (t2 & s2 & E2).
  { intros p t s. destruct (phones_pass p t s) as (o & s' & E & _). eauto. }
  change (sub_each phone_patterns replace_phone t1 s1) with (deidentify_phones t1 s1) in E2.
  pose proof (sub_names_outcome full_name_pattern (List.map fst specific_names)
                (Str.upper file_identifier) t2) as H3.
  split.
  - intros E. rewrite E in H3. destruct H3 as [t3 E3].
    pose proof (sub_names_outcome first_name_pattern common_first_names
                  (Str.upper file_identifier) t3) as H4.
    rewrite E in H4. destruct H4 as [t4 E4].
    rewrite (deidentify_text_steps text file_identifier t1 t2 t4 self s1 s2 s2 E1 E2).
    + apply sub_each_returns.
      intros p t s. destruct (ids_pass p t s) as (o & s' & Eo & _). eauto.
    + unfold deidentify_names, deidentify_names_in, bind, lift. now rewrite E3, E4.
  - intros e E _. rewrite E in H3.
    exists t1, s1, t2, s2. repeat split; auto.
    unfold deidentify_text, bind. rewrite E1, E2.
    unfold deidentify_names, deidentify_names_in, bind, lift.
    rewrite H3 by discriminate. reflexivity.
Qed.

Lemma text_error_is_template_error_witness :
  (exists out self',
      deidentify_text "Ask amy@gmail.com" "doc\.1" init = (Ret out, self')) /\
  (exists t1 s1 t2 s2,
      deidentify_emails "Ask amy@gmail.com" (Str.lower "doc\1") init = (Ret t1, s1) /\
      deidentify_phones t1 s1 = (Ret t2, s2) /\
      deidentify_text "Ask amy@gmail.com" "doc\1" init = (Raise ReError, s2)).
Proof.
  split.
  - apply (text_error_is_template_error "Ask amy@gmail.com" "doc\.1" init); reflexivity.
  - apply (text_error_is_template_error "Ask amy@gmail.com" "doc\1" init); reflexivity.
Defined.

(** The two calls of the witness: the first returns, the second raises
    after the email pass has filled its table. *)
Example template_error_run :
  fst (deidentify_text "Ask amy@gmail.com" "doc\.1" init) = Ret "Ask doc\.1@gmail.com" /\
  fst (deidentify_text "Ask amy@gmail.com" "doc\1" init) = Raise ReError /\
  email_mappings (snd (deidentify_text "Ask amy@gmail.com" "doc\1" init))
    !! "amy@gmail.com" = Some "doc\1@gmail.com".
Proof. vm_compute. repeat split; reflexivity. Qed.
